(** * DDalkkak-movie: the video composition stage and its collaborators

    A shallow embedding of [src/models.py], [src/config.py],
    [src/pipeline.py], [src/generators/script_generator.py] and
    [src/generators/video_composer.py].

    Conventions of the embedding.
    - A Python [str] is the list of its Unicode code points ([str]); string
      literals of the source are written as UTF-8 literals and decoded by
      [u].
    - A Python [int] is a [Z]; [//] is [Z.div] (floor division).
    - A [float] duration in seconds is an exact rational ([Q]): rounding is
      not modelled, and equalities of durations are stated with [==].
    - A raster frame (the [numpy] array of an RGB image) is the list of its
      rows, each a list of RGB pixels.
    - Code that raises returns [inl] of an [Error].  The composer runs in a
      small state-and-error monad over a [World] that records which clips
      are open and which files were written.
    - What the imaging, audio and encoding libraries do with files and
      fonts is taken as a parameter ([Externals]), and so is whether the
      clients of the API libraries can be built ([Clients]). *)

From Stdlib Require Import ZArith QArith Qminmax List Bool Lia.
From Stdlib Require Import Ascii String DecimalString DecimalZ.
From stdpp Require Import gmap strings list.

Local Open Scope Z_scope.

(** ** Python strings *)

Module PyStr.

(** A code point. *)
Definition char := Z.

(** A Python [str]. *)
Definition str := list char.

(** The value of a byte of a literal. *)
Definition byte_val (a : ascii) : Z := Z.of_N (N_of_ascii a).

Fixpoint bytes (s : string) : list Z :=
  match s with
  | EmptyString => []
  | String a s' => byte_val a :: bytes s'
  end.

(** UTF-8 decoding of a well-formed byte sequence: [need] continuation
    bytes are still expected for the code point accumulated in [acc]. *)
Fixpoint utf8_decode (bs : list Z) (need : nat) (acc : Z) : str :=
  match bs with
  | [] => []
  | b :: bs' =>
      match need with
      | O =>
          if b <? 128 then b :: utf8_decode bs' 0 0
          else if b <? 224 then utf8_decode bs' 1 (b mod 32)
          else if b <? 240 then utf8_decode bs' 2 (b mod 16)
          else utf8_decode bs' 3 (b mod 8)
      | S O => (acc * 64 + b mod 64) :: utf8_decode bs' 0 0
      | S n => utf8_decode bs' n (acc * 64 + b mod 64)
      end
  end.

(** A string literal of the source. *)
Definition u (s : string) : str := utf8_decode (bytes s) 0 0.

(** [c in chars]. *)
Definition char_in (c : char) (chars : str) : bool :=
  existsb (Z.eqb c) chars.

(** [str.isspace] on one code point (the set [str.strip()] removes). *)
Definition isspace (c : char) : bool :=
  ((9 <=? c) && (c <=? 13)) || ((28 <=? c) && (c <=? 32))
  || (c =? 133) || (c =? 160) || (c =? 5760)
  || ((8192 <=? c) && (c <=? 8202))
  || (c =? 8232) || (c =? 8233) || (c =? 8239) || (c =? 8287)
  || (c =? 12288).

Fixpoint lstrip (s : str) : str :=
  match s with
  | [] => []
  | c :: s' => if isspace c then lstrip s' else s
  end.

Definition rstrip (s : str) : str := rev (lstrip (rev s)).

(** [s.strip()]. *)
Definition strip (s : str) : str := rstrip (lstrip s).

(** Truth value of a [str]: non-empty. *)
Definition truthy (s : str) : bool :=
  match s with [] => false | _ => true end.

(** [str(n)] for an [int]. *)
Definition of_int (n : Z) : str := u (NilZero.string_of_int (Z.to_int n)).

(** [s.endswith(suffix)]. *)
Definition endswith (s suffix : str) : Prop := exists p, s = p ++ suffix.

End PyStr.

Import PyStr.

(** ** [src/models.py] *)

Definition Path := str.

Record Scene := {
  scene_number : Z;
  narration : str;
  image_prompt : str;
  duration : option Q;
  image_path : option Path;
  audio_path : option Path
}.

Record Script := {
  title : str;
  scenes : list Scene
}.

Definition total_scenes (self : Script) : Z := Z.of_nat (length (scenes self)).

(** [x or 0] on an optional duration: [None] and [0.0] both give [0]. *)
Definition or_0 (d : option Q) : Q :=
  match d with
  | Some q => if Qeq_bool q 0 then 0%Q else q
  | None => 0%Q
  end.

(** [sum(s.duration or 0 for s in self.scenes)]: a left fold from [0]. *)
Definition total_duration (self : Script) : Q :=
  fold_left (fun acc s => (acc + or_0 (duration s))%Q) (scenes self) 0%Q.

(** ** Subtitle wrapping ([VideoComposer._add_subtitle_to_image], lines 44-57) *)

Definition max_chars_per_line : Z := 40.

(** The clause and sentence punctuation at which a line may end. *)
Definition break_chars : str := u " .,!?。，！？".

(** One iteration of the loop over [text]; the state is
    [(lines, current_line)]. *)
Definition wrap_step (st : list str * str) (c : char) : list str * str :=
  let '(lines, current_line) := st in
  let current_line := current_line ++ [c] in
  if (max_chars_per_line <=? Z.of_nat (length current_line)) && char_in c break_chars
  then (lines ++ [strip current_line], [])
  else (lines, current_line).

(** The loop, then the flush of a non-empty [current_line] (lines 45-53). *)
Definition wrap_lines (text : str) : list str :=
  let '(lines, current_line) := fold_left wrap_step text ([], []) in
  if truthy current_line then lines ++ [strip current_line] else lines.

(** The cap at two lines (lines 56-57). *)
Definition cap_lines (lines : list str) : list str :=
  if 2 <? Z.of_nat (length lines)
  then match lines with
       | l0 :: l1 :: _ => [l0; l1 ++ u "..."]
       | _ => lines
       end
  else lines.

(** The lines that are drawn. *)
Definition subtitle_lines (text : str) : list str := cap_lines (wrap_lines text).

(** ** Frames and drawing (Pillow) *)

(** An RGB pixel. *)
Definition Pixel : Type := Z * Z * Z.

(** The array of an RGB image: rows of pixels, shape (H, W, 3). *)
Abbreviation Frame := (list (list Pixel)).

(** The ink Pillow draws on an RGB image for a 4-tuple colour: the alpha
    component is dropped. *)
Definition ink_RGB (rgba : Z * Z * Z * Z) : Pixel :=
  let '(r, g, b, _) := rgba in (r, g, b).

(** [draw.rectangle([(x0, y0), (x1, y1)], fill=fill)]: both corners are
    inside the filled area; pixels outside the image are clipped. *)
Definition draw_rectangle (img : Frame) (x0 y0 x1 y1 : Z) (fill : Pixel) : Frame :=
  imap (fun py row =>
          imap (fun px p =>
                  if (x0 <=? Z.of_nat px) && (Z.of_nat px <=? x1)
                     && (y0 <=? Z.of_nat py) && (Z.of_nat py <=? y1)
                  then fill else p) row) img.

(** ** Clips (moviepy) *)

Inductive Effect :=
| FadeIn (d : Q)
| FadeOut (d : Q).

Record AudioFileClip := { audio_filename : Path }.

(** An [ImageClip]: one frame held for [clip_duration] seconds.  [clip_id]
    names the clip as a resource: it is what [close] releases. *)
Record ImageClip := {
  clip_id : nat;
  clip_img : Frame;
  clip_duration : option Q;
  clip_effects : list Effect;
  clip_audio : option AudioFileClip
}.

(** The clip [concatenate_videoclips] returns: the clips with their start
    times, and the total duration. *)
Record CompositeVideoClip := {
  comp_id : nat;
  comp_clips : list (ImageClip * Q);
  comp_duration : Q
}.

Inductive Error :=
| MissingArtifact (scene_number : Z) (* the ValueError of compose_scene *)
| ImageLoadError (p : Path)          (* Image.open / resize failed *)
| AudioLoadError (p : Path)          (* AudioFileClip failed *)
| DurationNotSet                     (* moviepy: fadeout needs a duration *)
| ConcatTypeError                    (* cumsum over a None duration *)
| ConcatEmpty                        (* max() of no clip sizes *)
| EncoderError.                      (* write_videofile failed *)

(** What the libraries and the file system decide. *)
Record Externals := {
  (** lines 121-123: open the file, resize to (width, height) with
      LANCZOS, convert to an array; [None] when any of these raises *)
  load_image : Path -> Z -> Z -> option Frame;
  (** whether [AudioFileClip(path)] can open the file *)
  audio_readable : Path -> bool;
  (** [draw.textbbox((0, 0), line, font=font)] for the selected font *)
  textbbox : str -> Z * Z * Z * Z;
  (** [draw.text(xy, line, font=font, fill=fill)]: the new value of the
      pixel at offset (dx, dy) from [xy], given its old value *)
  text_ink : str -> Pixel -> Z -> Z -> Pixel -> Pixel;
  (** [str.isalnum] on one code point *)
  isalnum : char -> bool;
  OUTPUT_DIR : Path;
  (** [dir / name] *)
  path_join : Path -> str -> Path;
  (** whether [write_videofile] succeeds on this clip, path and fps *)
  encoder_ok : CompositeVideoClip -> Path -> Z -> bool
}.

(** [draw.text(xy, line, font=font, fill=fill)]. *)
Definition draw_text (E : Externals) (img : Frame) (xy : Z * Z) (line : str)
    (fill : Pixel) : Frame :=
  imap (fun py row =>
          imap (fun px p =>
                  text_ink E line fill (Z.of_nat px - fst xy) (Z.of_nat py - snd xy) p)
               row) img.

(** ** The world the composer acts on *)

Record World := {
  next_id : nat;                               (* next fresh clip identity *)
  open_clips : gset nat;                       (* clips created and not closed *)
  written : list (Path * CompositeVideoClip)   (* encoded files, newest first *)
}.

Definition M (A : Type) : Type := World -> World * (Error + A).

Definition ret {A} (a : A) : M A := fun w => (w, inr a).

Definition raise {A} (e : Error) : M A := fun w => (w, inl e).

Definition bind {A B} (m : M A) (k : A -> M B) : M B :=
  fun w =>
    match m w with
    | (w', inr a) => k a w'
    | (w', inl e) => (w', inl e)
    end.

Notation "x <- c1 ;; c2" := (bind c1 (fun x => c2))
  (at level 63, c1 at next level, right associativity, only parsing).

(** A new clip object: a fresh identity, recorded as open. *)
Definition fresh_clip : M nat :=
  fun w =>
    ({| next_id := S (next_id w);
        open_clips := {[ next_id w ]} ∪ open_clips w;
        written := written w |},
     inr (next_id w)).

(** [clip.close()]. *)
Definition close (id : nat) : M unit :=
  fun w =>
    ({| next_id := next_id w;
        open_clips := open_clips w ∖ {[ id ]};
        written := written w |},
     inr tt).

(** ** [src/generators/video_composer.py] *)

Record VideoComposer := {
  width : Z;
  height : Z;
  fps : Z;
  enable_subtitles : bool;
  enable_transitions : bool;
  transition_duration : Q
}.

(** [q > 0]. *)
Definition Qpositive (q : Q) : bool := negb (Qle_bool q 0).

Section Composer.

Variable E : Externals.

(** The loop over [enumerate(lines)] (lines 83-93), from index [i]. *)
Fixpoint draw_lines (self : VideoComposer) (img : Frame) (y_start line_height : Z)
    (i : Z) (lines : list str) : Frame :=
  match lines with
  | [] => img
  | line :: rest =>
      let '(b0, _, b2, _) := textbbox E line in
      let text_width := b2 - b0 in
      let x := (width self - text_width) / 2 in
      let y := y_start + i * line_height in
      let img := draw_text E img (x + 2, y + 2) line (0, 0, 0) in
      let img := draw_text E img (x, y) line (255, 255, 255) in
      draw_lines self img y_start line_height (i + 1) rest
  end.

Definition _add_subtitle_to_image (self : VideoComposer) (img_array : Frame)
    (text : str) : Frame :=
  let lines := subtitle_lines text in
  let line_height := 45 in
  let total_height := Z.of_nat (length lines) * line_height in
  let y_start := height self - total_height - 60 in
  let padding := 20 in
  let bg_top := y_start - padding in
  let bg_bottom := height self - 40 in
  let img := draw_rectangle img_array 0 bg_top (width self) bg_bottom
               (ink_RGB (0, 0, 0, 180)) in
  draw_lines self img y_start line_height 0 lines.

(** [clip.fadein(d)]. *)
Definition fadein (clip : ImageClip) (d : Q) : M ImageClip :=
  ret {| clip_id := clip_id clip; clip_img := clip_img clip;
         clip_duration := clip_duration clip;
         clip_effects := clip_effects clip ++ [FadeIn d];
         clip_audio := clip_audio clip |}.

(** [clip.fadeout(d)]: moviepy refuses a clip whose duration is not set. *)
Definition fadeout (clip : ImageClip) (d : Q) : M ImageClip :=
  match clip_duration clip with
  | None => raise DurationNotSet
  | Some _ =>
      ret {| clip_id := clip_id clip; clip_img := clip_img clip;
             clip_duration := clip_duration clip;
             clip_effects := clip_effects clip ++ [FadeOut d];
             clip_audio := clip_audio clip |}
  end.

Definition _create_fade_effect (self : VideoComposer) (clip : ImageClip)
    (fade_in fade_out : bool) : M ImageClip :=
  clip <- (if fade_in && Qpositive (transition_duration self)
           then fadein clip (transition_duration self) else ret clip) ;;
  clip <- (if fade_out && Qpositive (transition_duration self)
           then fadeout clip (transition_duration self) else ret clip) ;;
  ret clip.

(** [ImageClip(img_array)]. *)
Definition new_ImageClip (img_array : Frame) : M ImageClip :=
  id <- fresh_clip ;;
  ret {| clip_id := id; clip_img := img_array; clip_duration := None;
         clip_effects := []; clip_audio := None |}.

Definition set_duration (clip : ImageClip) (t : option Q) : ImageClip :=
  {| clip_id := clip_id clip; clip_img := clip_img clip; clip_duration := t;
     clip_effects := clip_effects clip; clip_audio := clip_audio clip |}.

Definition set_audio (clip : ImageClip) (a : AudioFileClip) : ImageClip :=
  {| clip_id := clip_id clip; clip_img := clip_img clip;
     clip_duration := clip_duration clip;
     clip_effects := clip_effects clip; clip_audio := Some a |}.

(** [Image.open], [resize], [np.array] (lines 121-123). *)
Definition open_image (self : VideoComposer) (p : Path) : M Frame :=
  match load_image E p (width self) (height self) with
  | Some img_array => ret img_array
  | None => raise (ImageLoadError p)
  end.

(** [AudioFileClip(str(path))]. *)
Definition open_audio (p : Path) : M AudioFileClip :=
  if audio_readable E p then ret {| audio_filename := p |}
  else raise (AudioLoadError p).

(** [not scene.image_path or not scene.audio_path]: a [Path] object is
    always true, so each test fails exactly on [None]. *)
Definition compose_scene (self : VideoComposer) (scene : Scene)
    (is_first is_last : bool) : M ImageClip :=
  match image_path scene, audio_path scene with
  | Some image_path, Some audio_path =>
      img_array <- open_image self image_path ;;
      let img_array :=
        if enable_subtitles self && truthy (narration scene)
        then _add_subtitle_to_image self img_array (narration scene)
        else img_array in
      image_clip <- new_ImageClip img_array ;;
      let image_clip := set_duration image_clip (duration scene) in
      image_clip <- (if enable_transitions self
                     then _create_fade_effect self image_clip is_first is_last
                     else ret image_clip) ;;
      audio_clip <- open_audio audio_path ;;
      ret (set_audio image_clip audio_clip)
  | _, _ => raise (MissingArtifact (scene_number scene))
  end.

(** The loop over [enumerate(script.scenes)] (lines 159-163), from index
    [i] with the clips built so far. *)
Fixpoint compose_loop (self : VideoComposer) (total_scenes : Z) (i : Z)
    (scenes : list Scene) (clips : list ImageClip) : M (list ImageClip) :=
  match scenes with
  | [] => ret clips
  | scene :: rest =>
      let is_first := i =? 0 in
      let is_last := i =? total_scenes - 1 in
      clip <- compose_scene self scene is_first is_last ;;
      compose_loop self total_scenes (i + 1) rest (clips ++ [clip])
  end.

(** [np.cumsum]. *)
Fixpoint cumsum_from (acc : Q) (l : list Q) : list Q :=
  match l with
  | [] => []
  | x :: r => (acc + x)%Q :: cumsum_from (acc + x)%Q r
  end.

Definition cumsum (l : list Q) : list Q :=
  match l with
  | [] => []
  | x :: r => x :: cumsum_from x r
  end.

(** [concatenate_videoclips(clips, method="compose")] of moviepy 1.x, with
    the default padding 0: the start times are the cumulative sums of the
    durations clamped at 0, the duration is the last of them. *)
Definition concatenate_videoclips (clips : list ImageClip) : M CompositeVideoClip :=
  match mapM clip_duration clips with
  | None => raise ConcatTypeError
  | Some ds =>
      let tt := map (Qmax 0) (cumsum (0%Q :: ds)) in
      match clips with
      | [] => raise ConcatEmpty
      | _ =>
          id <- fresh_clip ;;
          ret {| comp_id := id;
                 comp_clips := zip clips tt;
                 comp_duration := List.last tt 0%Q |}
      end
  end.

(** [final_clip.write_videofile(...)]. *)
Definition write_videofile (final_clip : CompositeVideoClip) (filename : Path)
    (fps : Z) : M unit :=
  fun w =>
    if encoder_ok E final_clip filename fps
    then ({| next_id := next_id w; open_clips := open_clips w;
             written := (filename, final_clip) :: written w |}, inr tt)
    else (w, inl EncoderError).

(** [for clip in clips: clip.close()]. *)
Fixpoint close_all (clips : list ImageClip) : M unit :=
  match clips with
  | [] => ret tt
  | clip :: rest => _ <- close (clip_id clip) ;; close_all rest
  end.

(** The default file name (lines 170-173). *)
Definition safe_title (title : str) : str :=
  strip (filter (fun c => isalnum E c || char_in c (u " -_")) title).

Definition compose (self : VideoComposer) (script : Script)
    (output_filename : option str) : M Path :=
  let total_scenes := Z.of_nat (length (scenes script)) in
  clips <- compose_loop self total_scenes 0 (scenes script) [] ;;
  final_clip <- concatenate_videoclips clips ;;
  let output_filename :=
    match output_filename with
    | None => safe_title (title script) ++ u ".mp4"
    | Some f => f
    end in
  let output_path := path_join E (OUTPUT_DIR E) output_filename in
  _ <- write_videofile final_clip output_path (fps self) ;;
  _ <- close (comp_id final_clip) ;;
  _ <- close_all clips ;;
  ret output_path.

End Composer.

(** ** [src/config.py] *)

Definition DEFAULT_VIDEO_WIDTH : Z := 1920.
Definition DEFAULT_VIDEO_HEIGHT : Z := 1080.
Definition DEFAULT_FPS : Z := 30.

Definition RESOLUTION_PRESETS : gmap (list Z) (Z * Z) :=
  {[ u "720p" := (1280, 720);
     u "1080p" := (1920, 1080);
     u "1440p" := (2560, 1440);
     u "4k" := (3840, 2160) ]}.

Definition TTS_LANGUAGE : str := u "ko".
Definition TTS_SLOW : bool := false.

(** The API keys read from the process environment at import time. *)
Record Credentials := {
  ANTHROPIC_API_KEY : option str;
  OPENAI_API_KEY : option str;
  GEMINI_API_KEY : option str
}.

(** Truth value of an optional string: set and non-empty. *)
Definition key_set (k : option str) : bool :=
  match k with Some s => truthy s | None => false end.

(** The client libraries ([anthropic], [openai], [google.genai]).  Each
    field tells whether the import of the library and the constructor of
    its client, called with the given [api_key], return ([true]) or raise
    ([false]); what a client does with a missing key is the library's. *)
Record Clients := {
  Anthropic : option str -> bool;
  OpenAI : option str -> bool;
  genai_Client : option str -> bool
}.

(** [api_key or KEY] on optional strings. *)
Definition or_key (api_key KEY : option str) : option str :=
  if key_set api_key then api_key else KEY.

(** ** [src/generators/script_generator.py] *)

Record ScriptGenerator := { use_placeholder : bool }.

(** [ScriptGenerator.__init__] (lines 13-19): the client is built unless
    the placeholder is asked for; [None] when its constructor raises. *)
Definition ScriptGenerator_init (L : Clients) (keys : Credentials) (api_key : option str)
    (placeholder : bool) : option ScriptGenerator :=
  if placeholder then Some {| use_placeholder := true |}
  else if Anthropic L (or_key api_key (ANTHROPIC_API_KEY keys))
       then Some {| use_placeholder := false |}
       else None.

(** [range(n)]. *)
Definition range (n : Z) : list Z := map Z.of_nat (seq 0 (Z.to_nat n)).

Definition placeholder_scene (prompt : str) (i : Z) : Scene :=
  {| scene_number := i + 1;
     narration := u "이것은 '" ++ prompt ++ u "'에 대한 " ++ of_int (i + 1)
                  ++ u "번째 장면입니다. 테스트용 나레이션입니다.";
     image_prompt := u "Scene " ++ of_int (i + 1) ++ u " about " ++ prompt
                     ++ u ", digital art, colorful";
     duration := None; image_path := None; audio_path := None |}.

Definition _generate_placeholder (prompt : str) (num_scenes : Z) : Script :=
  {| title := u "테스트: " ++ prompt;
     scenes := map (placeholder_scene prompt) (range (Z.min num_scenes 5)) |}.

(** The number of scenes asked for (line 33). *)
Definition num_scenes_for (target_duration : Z) : Z := Z.max 5 (target_duration / 18).

Definition user_message (prompt : str) (num_scenes target_duration : Z) : str :=
  u "다음 주제로 " ++ of_int num_scenes ++ u "개 장면의 영상 대본을 작성해주세요:"
  ++ [10; 10] ++ u "주제: " ++ prompt
  ++ [10; 10] ++ u "목표 영상 길이: 약 " ++ of_int (target_duration / 60) ++ u "분".

(** One entry of the response's [scenes] list. *)
Definition scene_of_entry (s : Z * str * str) : Scene :=
  let '(n, narr, img) := s in
  {| scene_number := n; narration := narr; image_prompt := img;
     duration := None; image_path := None; audio_path := None |}.

Section ScriptGeneration.

(** Lines 67-83: the call to the language model with the fixed system
    prompt and the given user message, and the parse of its answer into
    a title and the entries (scene_number, narration, image_prompt);
    [None] when the call or the parse raises. *)
Variable ask_model : str -> option (str * list (Z * str * str)).

Definition generate (self : ScriptGenerator) (prompt : str) (target_duration : Z)
    : option Script :=
  let num_scenes := num_scenes_for target_duration in
  if use_placeholder self then Some (_generate_placeholder prompt num_scenes)
  else
    match ask_model (user_message prompt num_scenes target_duration) with
    | Some (data_title, data_scenes) =>
        Some {| title := data_title; scenes := map scene_of_entry data_scenes |}
    | None => None
    end.

End ScriptGeneration.

(** ** [src/pipeline.py] *)

Record ImageGenerator := { provider : str }.

(** [OpenAIImageGenerator.__init__] (lines 26-29) and
    [GeminiImageGenerator.__init__] (lines 66-69): whether the client is
    built. *)
Definition OpenAIImageGenerator_init (L : Clients) (keys : Credentials)
    (api_key : option str) : bool :=
  OpenAI L (or_key api_key (OPENAI_API_KEY keys)).

Definition GeminiImageGenerator_init (L : Clients) (keys : Credentials)
    (api_key : option str) : bool :=
  genai_Client L (or_key api_key (GEMINI_API_KEY keys)).

(** The wrapper of a generator that was built, under the given name;
    [None] when the constructor of the generator raised. *)
Definition wrapped (built : bool) (name : str) : option ImageGenerator :=
  if built then Some {| provider := name |} else None.

(** [ImageGenerator.__init__] (lines 154-178): the provider that is
    selected; [None] when the constructor of its generator raises.  The
    placeholder generator has no constructor of its own and builds no
    client. *)
Definition ImageGenerator_init (L : Clients) (keys : Credentials) (provider : str)
    : option ImageGenerator :=
  if decide (provider = u "auto") then
    if key_set (GEMINI_API_KEY keys)
    then wrapped (GeminiImageGenerator_init L keys None) (u "gemini")
    else if key_set (OPENAI_API_KEY keys)
    then wrapped (OpenAIImageGenerator_init L keys None) (u "openai")
    else Some {| provider := u "placeholder" |}
  else if decide (provider = u "gemini")
  then wrapped (GeminiImageGenerator_init L keys None) (u "gemini")
  else if decide (provider = u "openai")
  then wrapped (OpenAIImageGenerator_init L keys None) (u "openai")
  else Some {| provider := u "placeholder" |}.

Record TTSGenerator := { language : str; slow : bool }.

Record DDalkkakPipeline := {
  script_gen : ScriptGenerator;
  image_gen : ImageGenerator;
  tts_gen : TTSGenerator;
  video_composer : VideoComposer;
  target_duration : Z;
  test_mode : bool;
  resolution : str
}.

(** [DDalkkakPipeline.__init__] (lines 19-51); [None] when it raises:
    the [KeyError] of [RESOLUTION_PRESETS["1080p"]], were that key
    missing, or the error of a collaborator whose client cannot be
    built. *)
Definition DDalkkakPipeline_init (L : Clients) (keys : Credentials) (image_provider : str)
    (target_duration : Z) (test_mode enable_subtitles enable_transitions : bool)
    (resolution : str) : option DDalkkakPipeline :=
  match RESOLUTION_PRESETS !! u "1080p" with
  | None => None
  | Some fallback =>
      let '(width, height) := default fallback (RESOLUTION_PRESETS !! resolution) in
      match ScriptGenerator_init L keys None test_mode with
      | None => None
      | Some script_generator =>
          match ImageGenerator_init L keys
                  (if test_mode then u "placeholder" else image_provider) with
          | None => None
          | Some image_generator =>
              Some {| script_gen := script_generator;
                      image_gen := image_generator;
                      tts_gen := {| language := TTS_LANGUAGE; slow := TTS_SLOW |};
                      video_composer :=
                        {| width := width; height := height; fps := DEFAULT_FPS;
                           enable_subtitles := enable_subtitles;
                           enable_transitions := enable_transitions;
                           transition_duration := 0.5 |};
                      target_duration := target_duration;
                      test_mode := test_mode;
                      resolution := resolution |}
          end
      end
  end.

(** ** What a successful [compose_scene] returns

    The frame, the effects and the clip that [compose_scene] builds, written
    out; [compose_scene_built] below proves that this is what it returns. *)

(** The frame held by the clip (lines 126-127). *)
Definition scene_frame (E : Externals) (self : VideoComposer) (scene : Scene)
    (img_array : Frame) : Frame :=
  if enable_subtitles self && truthy (narration scene)
  then _add_subtitle_to_image E self img_array (narration scene)
  else img_array.

(** The fades applied to the clip (lines 134-137 and 99-102). *)
Definition scene_effects (self : VideoComposer) (is_first is_last : bool) : list Effect :=
  if enable_transitions self
  then (if is_first && Qpositive (transition_duration self)
        then [FadeIn (transition_duration self)] else [])
       ++ (if is_last && Qpositive (transition_duration self)
           then [FadeOut (transition_duration self)] else [])
  else [].

Definition built_clip (E : Externals) (self : VideoComposer) (scene : Scene)
    (is_first is_last : bool) (id : nat) (img_array : Frame) (audio : Path) : ImageClip :=
  {| clip_id := id;
     clip_img := scene_frame E self scene img_array;
     clip_duration := duration scene;
     clip_effects := scene_effects self is_first is_last;
     clip_audio := Some {| audio_filename := audio |} |}.

(** The world after one more clip was created. *)
Definition allocated (w : World) : World := fst (fresh_clip w).

(** Every open clip has an identity that was handed out already. *)
Definition world_ok (w : World) : Prop :=
  forall id, id ∈ open_clips w -> (id < next_id w)%nat.

(** The path [compose] writes to. *)
Definition output_path_of (E : Externals) (script : Script) (output_filename : option str)
    : Path :=
  path_join E (OUTPUT_DIR E)
    (match output_filename with
     | None => safe_title E (title script) ++ u ".mp4"
     | Some f => f
     end).

(** The clips built for [scenes], the first of them at index [i] of the
    script and with identity [id]. *)
Fixpoint built_from (E : Externals) (self : VideoComposer) (total_scenes i : Z)
    (id : nat) (scenes : list Scene) (clips : list ImageClip) : Prop :=
  match scenes, clips with
  | [], [] => True
  | scene :: scenes', clip :: clips' =>
      (exists p a img,
          image_path scene = Some p /\ audio_path scene = Some a
          /\ load_image E p (width self) (height self) = Some img
          /\ audio_readable E a = true
          /\ clip = built_clip E self scene (i =? 0) (i =? total_scenes - 1) id img a)
      /\ built_from E self total_scenes (i + 1) (S id) scenes' clips'
  | _, _ => False
  end.

(** A scene [compose] can work with: every artifact is set, the files can
    be read. *)
Definition composable (E : Externals) (self : VideoComposer) (scene : Scene) : bool :=
  match image_path scene, audio_path scene, duration scene with
  | Some p, Some a, Some _ =>
      bool_decide (is_Some (load_image E p (width self) (height self)))
      && audio_readable E a
  | _, _, _ => false
  end.

(** A composable scene whose duration is a length of time. *)
Definition resolved (E : Externals) (self : VideoComposer) (scene : Scene) : bool :=
  composable E self scene
  && match duration scene with Some d => Qle_bool 0 d | None => false end.

(** The dimensions of a frame: the width of each of its rows, in order (in
    an array they are all equal, and their number is the height). *)
Definition dimensions (img : Frame) : list nat := map length img.

(** Every clip created between the worlds [w] and [w'] is closed in [w']. *)
Definition clips_released (w w' : World) : Prop :=
  forall id, (next_id w <= id < next_id w')%nat -> id ∉ open_clips w'.

(** A clip carries a fade-in, a fade-out. *)
Definition has_fade_in (clip : ImageClip) : Prop :=
  exists d, In (FadeIn d) (clip_effects clip).

Definition has_fade_out (clip : ImageClip) : Prop :=
  exists d, In (FadeOut d) (clip_effects clip).

(** The fade policy: of the clips of a video, the first and only the first
    has a fade-in, the last and only the last has a fade-out. *)
Definition fade_policy (clips : list ImageClip) : Prop :=
  forall k clip,
    clips !! k = Some clip ->
    (has_fade_in clip <-> k = 0%nat) /\ (has_fade_out clip <-> S k = length clips).

(** The code points of a string that are not whitespace, in order. *)
Definition visible (s : str) : str := List.filter (fun c => negb (isspace c)) s.

(** ** The artifact files ([image_generator.py], [tts_generator.py]) *)

(** [f"{n:03d}"]: the sign, then zeros up to a width of three, then the
    digits. *)
Definition format_03d (n : Z) : str :=
  let sign := if n <? 0 then u "-" else [] in
  let digits := of_int (Z.abs n) in
  sign ++ replicate (3 - length sign - length digits) 48 ++ digits.

(** [f"scene_{scene_number:03d}.png"] and [f"audio_{scene_number:03d}.mp3"]. *)
Definition image_file_name (scene_number : Z) : str :=
  u "scene_" ++ format_03d scene_number ++ u ".png".

Definition audio_file_name (scene_number : Z) : str :=
  u "audio_" ++ format_03d scene_number ++ u ".mp3".

(** What the image and speech services decide. *)
Record Collaborators := {
  TEMP_DIR : Path;
  (** [self.generator.generate(prompt, output_path)] of the selected
      provider: it writes the file and returns [output_path], or raises *)
  image_written : str -> str -> Path -> bool;
  (** the speech of [text] saved at the path, and its measured length in
      seconds; [None] when gTTS or the reading of the file raises *)
  speech_length : str -> bool -> str -> Path -> option Q
}.

(** [ImageGenerator.generate]. *)
Definition ImageGenerator_generate (E : Externals) (C : Collaborators)
    (self : ImageGenerator) (prompt : str) (scene_number : Z) : option Path :=
  let output_path := path_join E (TEMP_DIR C) (image_file_name scene_number) in
  if image_written C (provider self) prompt output_path then Some output_path else None.

(** [TTSGenerator.generate]. *)
Definition TTSGenerator_generate (E : Externals) (C : Collaborators)
    (self : TTSGenerator) (text : str) (scene_number : Z) : option (Path * Q) :=
  let output_path := path_join E (TEMP_DIR C) (audio_file_name scene_number) in
  match speech_length C (language self) (slow self) text output_path with
  | Some duration => Some (output_path, duration)
  | None => None
  end.

(** Reading a number back from its digits (used to tell file names
    apart). *)
Fixpoint uint_of_str (s : str) : option Decimal.uint :=
  match s with
  | [] => Some Decimal.Nil
  | c :: r =>
      match uint_of_str r with
      | None => None
      | Some d =>
          if c =? 48 then Some (Decimal.D0 d) else if c =? 49 then Some (Decimal.D1 d)
          else if c =? 50 then Some (Decimal.D2 d) else if c =? 51 then Some (Decimal.D3 d)
          else if c =? 52 then Some (Decimal.D4 d) else if c =? 53 then Some (Decimal.D5 d)
          else if c =? 54 then Some (Decimal.D6 d) else if c =? 55 then Some (Decimal.D7 d)
          else if c =? 56 then Some (Decimal.D8 d) else if c =? 57 then Some (Decimal.D9 d)
          else None
      end
  end.

Definition int_of_str (s : str) : option Z :=
  match s with
  | 45 :: r => option_map (fun d => - Z.of_uint d) (uint_of_str r)
  | _ => option_map Z.of_uint (uint_of_str s)
  end.

(** ** [DDalkkakPipeline.create] *)

Inductive PipelineError :=
| ScriptFailed                      (* the script collaborator raised *)
| ImageFailed (scene_number : Z)    (* the image collaborator raised *)
| SpeechFailed (scene_number : Z)   (* the narration collaborator raised *)
| ComposeFailed (e : Error).        (* [compose] raised *)

Definition set_image_path (scene : Scene) (p : Path) : Scene :=
  {| scene_number := scene_number scene; narration := narration scene;
     image_prompt := image_prompt scene; duration := duration scene;
     image_path := Some p; audio_path := audio_path scene |}.

Definition set_audio_path_and_duration (scene : Scene) (p : Path) (d : Q) : Scene :=
  {| scene_number := scene_number scene; narration := narration scene;
     image_prompt := image_prompt scene; duration := Some d;
     image_path := image_path scene; audio_path := Some p |}.

(** The loop of stage 2 (lines 76-80): one image per scene, in order. *)
Fixpoint image_stage (E : Externals) (C : Collaborators) (image_gen : ImageGenerator)
    (scenes : list Scene) : PipelineError + list Scene :=
  match scenes with
  | [] => inr []
  | scene :: rest =>
      match ImageGenerator_generate E C image_gen (image_prompt scene) (scene_number scene) with
      | None => inl (ImageFailed (scene_number scene))
      | Some p =>
          match image_stage E C image_gen rest with
          | inl e => inl e
          | inr rest' => inr (set_image_path scene p :: rest')
          end
      end
  end.

(** The loop of stage 3 (lines 84-88): one narration per scene, in order. *)
Fixpoint speech_stage (E : Externals) (C : Collaborators) (tts_gen : TTSGenerator)
    (scenes : list Scene) : PipelineError + list Scene :=
  match scenes with
  | [] => inr []
  | scene :: rest =>
      match TTSGenerator_generate E C tts_gen (narration scene) (scene_number scene) with
      | None => inl (SpeechFailed (scene_number scene))
      | Some (p, d) =>
          match speech_stage E C tts_gen rest with
          | inl e => inl e
          | inr rest' => inr (set_audio_path_and_duration scene p d :: rest')
          end
      end
  end.

Definition create (E : Externals) (C : Collaborators)
    (ask_model : str -> option (str * list (Z * str * str)))
    (self : DDalkkakPipeline) (prompt : str) (output_filename : option str)
    : World -> World * (PipelineError + Path) :=
  fun w =>
    match generate ask_model (script_gen self) prompt (target_duration self) with
    | None => (w, inl ScriptFailed)
    | Some script =>
        match image_stage E C (image_gen self) (scenes script) with
        | inl e => (w, inl e)
        | inr illustrated =>
            match speech_stage E C (tts_gen self) illustrated with
            | inl e => (w, inl e)
            | inr narrated =>
                match compose E (video_composer self)
                        {| title := title script; scenes := narrated |}
                        output_filename w with
                | (w', inr output_path) => (w', inr output_path)
                | (w', inl e) => (w', inl (ComposeFailed e))
                end
            end
        end
    end.

(** The paths of the artifacts of a scene, and the length of its speech
    as the narration collaborator measures it. *)
Definition image_path_of (E : Externals) (C : Collaborators) (scene : Scene) : Path :=
  path_join E (TEMP_DIR C) (image_file_name (scene_number scene)).

Definition audio_path_of (E : Externals) (C : Collaborators) (scene : Scene) : Path :=
  path_join E (TEMP_DIR C) (audio_file_name (scene_number scene)).

Definition measured (E : Externals) (C : Collaborators) (tts_gen : TTSGenerator)
    (scene : Scene) : option Q :=
  speech_length C (language tts_gen) (slow tts_gen) (narration scene) (audio_path_of E C scene).

(** A scene after stages 2 and 3. *)
Definition finished (E : Externals) (C : Collaborators) (scene : Scene) (d : Q) : Scene :=
  set_audio_path_and_duration (set_image_path scene (image_path_of E C scene))
    (audio_path_of E C scene) d.

(** A scene has all three artifacts. *)
Definition staged_fully (scene : Scene) : Prop :=
  is_Some (image_path scene) /\ is_Some (audio_path scene) /\ is_Some (duration scene).

(** ** [app.py]: the credential file *)

(** [mask_key]. *)
Definition mask_key (key : str) : str :=
  if negb (truthy key) || (Z.of_nat (length key) <? 10) then []
  else take 8 key ++ u "..." ++ drop (length key - 4) key.

(** What reading a text file does to the ends of lines: "\r\n" and "\r"
    become "\n". *)
Fixpoint universal_newlines (s : str) : str :=
  match s with
  | [] => []
  | c :: r =>
      if c =? 13
      then 10 :: match r with
                 | 10 :: r' => universal_newlines r'
                 | _ => universal_newlines r
                 end
      else c :: universal_newlines r
  end.

(** [for line in f]: the lines with their ends, [cur] being the line read
    so far. *)
Fixpoint iter_lines_from (cur : str) (s : str) : list str :=
  match s with
  | [] => if truthy cur then [cur] else []
  | c :: r =>
      if c =? 10 then (cur ++ [10]) :: iter_lines_from [] r
      else iter_lines_from (cur ++ [c]) r
  end.

Definition iter_lines (s : str) : list str := iter_lines_from [] s.

(** [line.split("=", 1)] for a line that contains "=". *)
Fixpoint split_once (sep : char) (s : str) : str * str :=
  match s with
  | [] => ([], [])
  | c :: r =>
      if c =? sep then ([], r)
      else let '(before, after) := split_once sep r in (c :: before, after)
  end.

(** [line.startswith("#")]. *)
Definition starts_with_hash (line : str) : bool :=
  match line with c :: _ => c =? 35 | [] => false end.

(** The entry a line of the file stands for, if any (lines 29-32). *)
Definition env_entry (line : str) : option (str * str) :=
  let line := strip line in
  if truthy line && negb (starts_with_hash line) && char_in 61 line
  then Some (split_once 61 line)
  else None.

(** [load_env_keys]; [None] is the file that does not exist. *)
Definition load_env_keys (file : option str) : gmap (list Z) (list Z) :=
  match file with
  | None => ∅
  | Some content =>
      fold_left (fun keys line =>
                   match env_entry line with
                   | Some (key, value) => <[key := value]> keys
                   | None => keys
                   end)
        (iter_lines (universal_newlines content)) ∅
  end.

(** [keys.get(name, '')]. *)
Definition get_or_empty (keys : gmap (list Z) (list Z)) (name : str) : str :=
  default [] (keys !! name).

(** [save_env_keys]: the text written to the file, and the process
    environment after the update with the keys that are not empty. *)
Definition save_env_keys (keys : gmap (list Z) (list Z)) (environ : gmap (list Z) (list Z))
    : str * gmap (list Z) (list Z) :=
  let openai_key := get_or_empty keys (u "OPENAI_API_KEY") in
  (u "# DDalkkak Movie - API Keys" ++ [10; 10]
   ++ u "# Anthropic (Claude) API - 대본 생성" ++ [10]
   ++ u "ANTHROPIC_API_KEY=" ++ get_or_empty keys (u "ANTHROPIC_API_KEY") ++ [10; 10]
   ++ u "# Google Gemini API - 이미지 생성" ++ [10]
   ++ u "GEMINI_API_KEY=" ++ get_or_empty keys (u "GEMINI_API_KEY") ++ [10; 10]
   ++ u "# OpenAI API (선택) - DALL-E 이미지 생성" ++ [10]
   ++ (if truthy openai_key
       then u "OPENAI_API_KEY=" ++ openai_key ++ [10]
       else u "# OPENAI_API_KEY=your_openai_api_key_here" ++ [10]),
   filter (fun entry => Is_true (truthy (snd entry))) keys ∪ environ).

(** A value that survives the file: it has no line end in it and does not
    end with whitespace. *)
Definition survives (value : str) : Prop :=
  Forall (fun c => c <> 10 /\ c <> 13) value
  /\ match rev value with [] => True | c :: _ => isspace c = false end.

(** ** The text handed to [json.loads] ([ScriptGenerator.generate], lines 77-83) *)

(** [s.startswith(prefix)]. *)
Fixpoint starts_with (prefix s : list Z) : bool :=
  match prefix, s with
  | [], _ => true
  | p :: prefix', c :: r => (p =? c) && starts_with prefix' r
  | _ :: _, [] => false
  end.

(** [sep in s]. *)
Fixpoint contains (sep s : list Z) : bool :=
  starts_with sep s
  || match s with [] => false | _ :: r => contains sep r end.

(** [s.split(sep)] for a separator that is not empty: [cur] is the piece
    read so far, [skip] the number of code points of a separator that was
    found and is still to be passed over. *)
Fixpoint split_go (sep cur : list Z) (skip : nat) (s : list Z) : list (list Z) :=
  match s with
  | [] => [cur]
  | c :: r =>
      match skip with
      | S k => split_go sep cur k r
      | O =>
          if starts_with sep s then cur :: split_go sep [] (length sep - 1) r
          else split_go sep (cur ++ [c]) 0 r
      end
  end.

Definition split (sep s : list Z) : list (list Z) := split_go sep [] 0 s.

(** Lines 78-83: the text handed to [json.loads]; [None] is the
    [IndexError] of an index out of range. *)
Definition fenced_text (fence response_text : list Z) : option (list Z) :=
  match split fence response_text !! 1%nat with
  | Some after =>
      match split (u "```") after !! 0%nat with
      | Some inside => Some inside
      | None => None
      end
  | None => None
  end.

Definition json_text (response_text : list Z) : option (list Z) :=
  match
    (if contains (u "```json") response_text then fenced_text (u "```json") response_text
     else if contains (u "```") response_text then fenced_text (u "```") response_text
     else Some response_text)
  with
  | Some text => Some (strip text)
  | None => None
  end.

(** ** Concrete inputs used in the examples below *)

Definition no_keys : Credentials :=
  {| ANTHROPIC_API_KEY := None; OPENAI_API_KEY := None; GEMINI_API_KEY := None |}.

Definition openai_key_only : Credentials :=
  {| ANTHROPIC_API_KEY := None; OPENAI_API_KEY := Some (u "sk-demo");
     GEMINI_API_KEY := None |}.

(** A stand-in for the client libraries: the Anthropic client is built
    with or without a key, the OpenAI client refuses a missing key, the
    Gemini client a missing or empty one. *)
Definition sdk : Clients :=
  {| Anthropic := fun _ => true;
     OpenAI := fun k => match k with Some _ => true | None => false end;
     genai_Client := key_set |}.

Definition white : Pixel := (255, 255, 255).

(** A white frame of the given width and height. *)
Definition blank (w h : Z) : Frame := replicate (Z.to_nat h) (replicate (Z.to_nat w) white).

(** A stand-in for the libraries: every image file decodes to a white
    frame of the requested size, every audio file can be read, the font
    has cells of 20 by 36 pixels that are painted whole, and the encoder
    answers [encodes]. *)
Definition studio (encodes : bool) : Externals :=
  {| load_image := fun _ w h => Some (blank w h);
     audio_readable := fun _ => true;
     textbbox := fun line => (0, 0, 20 * Z.of_nat (length line), 36);
     text_ink := fun line fill dx dy old =>
                   if (0 <=? dx) && (dx <? 20 * Z.of_nat (length line))
                      && (0 <=? dy) && (dy <? 36)
                   then fill else old;
     isalnum := fun c => ((48 <=? c) && (c <=? 57)) || ((65 <=? c) && (c <=? 90))
                         || ((97 <=? c) && (c <=? 122)) || (128 <=? c);
     OUTPUT_DIR := u "output";
     path_join := fun dir name => dir ++ u "/" ++ name;
     encoder_ok := fun _ _ _ => encodes |}.


(** The composer of the default pipeline, and a small one. *)
Definition default_composer : VideoComposer :=
  {| width := DEFAULT_VIDEO_WIDTH; height := DEFAULT_VIDEO_HEIGHT; fps := DEFAULT_FPS;
     enable_subtitles := true; enable_transitions := true;
     transition_duration := 0.5 |}.

Definition small_composer (transition_duration : Q) : VideoComposer :=
  {| width := 16; height := 90; fps := DEFAULT_FPS;
     enable_subtitles := true; enable_transitions := true;
     transition_duration := transition_duration |}.


(** A scene after the image and narration stages. *)
Definition staged (n : Z) (text : str) (d : option Q) : Scene :=
  {| scene_number := n; narration := text; image_prompt := u "a lighthouse";
     duration := d;
     image_path := Some (u "temp/scene_00" ++ of_int n ++ u ".png");
     audio_path := Some (u "temp/audio_00" ++ of_int n ++ u ".mp3") |}.

Definition demo_script : Script :=
  {| title := u "Demo: lighthouse!";
     scenes := [staged 1 (u "Once there was a lighthouse.") (Some 2.5%Q);
                staged 2 (u "It is still there.") (Some 4%Q);
                staged 3 [] (Some 1.25%Q)] |}.

(** A script whose second scene, numbered 7, has no artifacts yet. *)
Definition gap_script : Script :=
  {| title := u "Demo";
     scenes := [staged 1 (u "Once there was a lighthouse.") (Some 2.5%Q);
                scene_of_entry (7, u "No artifacts yet.", u "a ship");
                staged 3 [] (Some 1.25%Q)] |}.

(** Keys as the settings form holds them: an Anthropic key, no Gemini key,
    an empty OpenAI key, and an entry the file has no line for. *)
Definition demo_keys : gmap (list Z) (list Z) :=
  {[ u "ANTHROPIC_API_KEY" := u "sk-ant-api03-Zm9v=YmFy";
     u "OPENAI_API_KEY" := u "";
     u "ELEVENLABS_API_KEY" := u "el-123" ]}.

Definition empty_world : World :=
  {| next_id := 0; open_clips := ∅; written := [] |}.

(** A text that wraps into six lines. *)
Definition long_text : str :=
  u "The committee met on Monday to review the annual budget, and after a long discussion it agreed to postpone the decision. A second meeting will be held next week, when the missing figures are available. Nothing else was decided."%string.

(** ** The properties *)

(** *** The model on concrete inputs *)

Example break_chars_code_points :
  break_chars = [32; 46; 44; 33; 63; 12290; 65292; 65281; 65311].
Proof. reflexivity. Qed.

Example wrap_lines_long_text :
  map length (wrap_lines long_text) = [41; 42; 44; 40; 43; 12]%nat.
Proof. vm_compute. reflexivity. Qed.

Example wrap_lines_placeholder_narration :
  wrap_lines (narration (placeholder_scene (u "test") 0))
  = [narration (placeholder_scene (u "test") 0)].
Proof. vm_compute. reflexivity. Qed.

Example safe_title_demo_script :
  safe_title (studio true) (title demo_script) = u "Demo lighthouse".
Proof. vm_compute. reflexivity. Qed.

Example total_duration_demo_script : (total_duration demo_script == 7.75)%Q.
Proof. vm_compute. reflexivity. Qed.

(** *** Subtitle wrapping *)

Lemma cap_lines_length (lines : list str) : (length (cap_lines lines) <= 2)%nat.
Proof.
  unfold cap_lines.
  destruct (2 <? Z.of_nat (length lines)) eqn:Hlen.
  - destruct lines as [|l0 [|l1 rest]]; simpl in *; lia.
  - apply Z.ltb_ge in Hlen. lia.
Qed.

Lemma cap_lines_overflow (lines : list str) :
  (2 < length lines)%nat ->
  exists l0 l1 rest, lines = l0 :: l1 :: rest /\ cap_lines lines = [l0; l1 ++ u "..."].
Proof.
  intros Hlen. unfold cap_lines.
  destruct (Z.ltb_spec 2 (Z.of_nat (length lines))) as [_|Hle]; [|lia].
  destruct lines as [|l0 [|l1 rest]]; simpl in Hlen; try lia.
  exists l0, l1, rest. split; reflexivity.
Qed.

(** C2. For every text, at most two lines are displayed; and whenever the
    wrapped text has more than two lines, the displayed lines are its first
    two, the second one followed by the marker "...". *)
Theorem subtitle_lines_at_most_two (text : str) :
  (length (subtitle_lines text) <= 2)%nat /\
  ((2 < length (wrap_lines text))%nat ->
   exists l0 l1 rest,
     wrap_lines text = l0 :: l1 :: rest /\
     subtitle_lines text = [l0; l1 ++ u "..."] /\
     endswith (nth 1 (subtitle_lines text) []) (u "...")).
Proof.
  split.
  - apply cap_lines_length.
  - intros Hlen. unfold subtitle_lines.
    destruct (cap_lines_overflow _ Hlen) as (l0 & l1 & rest & Hw & Hc).
    exists l0, l1, rest. rewrite Hc. repeat split; [exact Hw|].
    exists l1. reflexivity.
Qed.

Lemma subtitle_lines_at_most_two_witness :
  (2 < length (wrap_lines long_text))%nat /\
  exists l0 l1 rest,
    wrap_lines long_text = l0 :: l1 :: rest /\
    subtitle_lines long_text = [l0; l1 ++ u "..."] /\
    endswith (nth 1 (subtitle_lines long_text) []) (u "...").
Proof.
  assert (H : (2 < length (wrap_lines long_text))%nat) by (vm_compute; lia).
  split; [exact H | exact (proj2 (subtitle_lines_at_most_two long_text) H)].
Defined.

(** *** [compose_scene] *)

Ltac run :=
  unfold compose_scene, _create_fade_effect, new_ImageClip, open_image, open_audio,
    fadein, fadeout, bind, ret, raise, set_duration, set_audio; simpl.

(** Without both artifacts the scene is refused, and nothing is created. *)
Lemma compose_scene_missing E self scene is_first is_last w :
  image_path scene = None \/ audio_path scene = None ->
  compose_scene E self scene is_first is_last w
  = (w, inl (MissingArtifact (scene_number scene))).
Proof.
  intros [H|H]; unfold compose_scene; rewrite H;
    [|destruct (image_path scene)]; reflexivity.
Qed.

(** With both artifacts, the four ways [compose_scene] can end. *)
Lemma compose_scene_cases E self scene is_first is_last w p a :
  image_path scene = Some p -> audio_path scene = Some a ->
  match load_image E p (width self) (height self) with
  | None => compose_scene E self scene is_first is_last w = (w, inl (ImageLoadError p))
  | Some img =>
      if enable_transitions self && is_last && Qpositive (transition_duration self)
         && negb (bool_decide (is_Some (duration scene)))
      then compose_scene E self scene is_first is_last w = (allocated w, inl DurationNotSet)
      else if audio_readable E a
      then compose_scene E self scene is_first is_last w
           = (allocated w, inr (built_clip E self scene is_first is_last (next_id w) img a))
      else compose_scene E self scene is_first is_last w
           = (allocated w, inl (AudioLoadError a))
  end.
Proof.
  intros Hp Ha. unfold built_clip, scene_effects, scene_frame, allocated.
  run. rewrite Hp, Ha.
  destruct (load_image E p (width self) (height self)) as [img|]; [|reflexivity].
  simpl.
  destruct (enable_transitions self), is_first, is_last,
    (Qpositive (transition_duration self)), (duration scene), (audio_readable E a);
    reflexivity.
Qed.

(** With both artifacts set, the error is never the validation error. *)
Lemma compose_scene_not_missing E self scene is_first is_last w p a :
  image_path scene = Some p -> audio_path scene = Some a ->
  forall n, snd (compose_scene E self scene is_first is_last w) <> inl (MissingArtifact n).
Proof.
  intros Hp Ha n.
  pose proof (compose_scene_cases E self scene is_first is_last w p a Hp Ha) as H.
  destruct (load_image E p (width self) (height self)); [|rewrite H; discriminate].
  destruct (enable_transitions self && is_last && Qpositive (transition_duration self)
            && negb (bool_decide (is_Some (duration scene))));
    [rewrite H; discriminate|].
  destruct (audio_readable E a); rewrite H; discriminate.
Qed.

(** C4. [compose_scene] ends with the validation error, which carries the
    number of the scene, exactly when the image or the audio reference of
    the scene is unset; when both are set it ends with no validation error
    at all. *)
Theorem compose_scene_validation E self scene is_first is_last w :
  ((image_path scene = None \/ audio_path scene = None) <->
   snd (compose_scene E self scene is_first is_last w)
   = inl (MissingArtifact (scene_number scene)))
  /\ ((exists n, snd (compose_scene E self scene is_first is_last w)
                 = inl (MissingArtifact n)) <->
      (image_path scene = None \/ audio_path scene = None)).
Proof.
  assert (Hback : forall n,
             snd (compose_scene E self scene is_first is_last w) = inl (MissingArtifact n) ->
             image_path scene = None \/ audio_path scene = None).
  { intros n Hn.
    destruct (image_path scene) as [p|] eqn:Hp; [|left; reflexivity].
    destruct (audio_path scene) as [a|] eqn:Ha; [|right; reflexivity].
    exfalso. exact (compose_scene_not_missing E self scene is_first is_last w p a Hp Ha n Hn). }
  split; split.
  - intros H. rewrite (compose_scene_missing E self scene is_first is_last w H). reflexivity.
  - apply Hback.
  - intros [n Hn]. exact (Hback n Hn).
  - intros H. exists (scene_number scene).
    rewrite (compose_scene_missing E self scene is_first is_last w H). reflexivity.
Qed.

(** C10. A scene whose image and audio references are set and whose
    duration is unset passes the precondition check: the validation error
    is not raised.  Once the image is loaded a clip is created (a new clip
    identity is handed out and recorded as open), and what is returned is
    that clip, with its duration unset, unless the audio file cannot be
    opened or the closing fade-out is due, which moviepy refuses on a clip
    without a duration. *)
Theorem compose_scene_unset_duration E self scene is_first is_last w p a :
  image_path scene = Some p -> audio_path scene = Some a -> duration scene = None ->
  (forall n, snd (compose_scene E self scene is_first is_last w) <> inl (MissingArtifact n))
  /\ (forall img,
        load_image E p (width self) (height self) = Some img ->
        fst (compose_scene E self scene is_first is_last w) = allocated w
        /\ next_id w ∈ open_clips (fst (compose_scene E self scene is_first is_last w))
        /\ (enable_transitions self && is_last && Qpositive (transition_duration self) = true ->
            snd (compose_scene E self scene is_first is_last w) = inl DurationNotSet)
        /\ (enable_transitions self && is_last && Qpositive (transition_duration self) = false ->
            audio_readable E a = true ->
            exists clip,
              snd (compose_scene E self scene is_first is_last w) = inr clip
              /\ clip_id clip = next_id w
              /\ clip_duration clip = None)).
Proof.
  intros Hp Ha Hd. split.
  - exact (compose_scene_not_missing E self scene is_first is_last w p a Hp Ha).
  - intros img Himg.
    pose proof (compose_scene_cases E self scene is_first is_last w p a Hp Ha) as H.
    rewrite Himg, Hd in H. simpl in H. rewrite andb_true_r in H.
    assert (Hopen : next_id w ∈ open_clips (allocated w)).
    { unfold allocated, fresh_clip. simpl. set_solver. }
    destruct (enable_transitions self && is_last && Qpositive (transition_duration self)).
    + rewrite H. simpl. repeat split; [exact Hopen | discriminate].
    + destruct (audio_readable E a); rewrite H; simpl;
        (repeat split; [exact Hopen | discriminate |]); intros _ Haud; [|discriminate].
      eexists. repeat split. exact Hd.
Qed.

Lemma compose_scene_unset_duration_witness :
  exists clip,
    snd (compose_scene (studio true) (small_composer 0.5)
           (staged 2 (u "It is still there.") None) false false empty_world)
    = inr clip
    /\ clip_id clip = 0%nat
    /\ clip_duration clip = None.
Proof.
  refine (proj2 (proj2 (proj2 (proj2
            (compose_scene_unset_duration (studio true) (small_composer 0.5)
               (staged 2 (u "It is still there.") None) false false empty_world
               _ _ eq_refl eq_refl eq_refl)
            (blank 16 90) eq_refl))) eq_refl eq_refl).
Defined.

(** What a returned clip tells about the scene and the world. *)
Lemma compose_scene_inr E self scene is_first is_last w w' clip :
  compose_scene E self scene is_first is_last w = (w', inr clip) ->
  w' = allocated w
  /\ exists p a img,
      image_path scene = Some p /\ audio_path scene = Some a
      /\ load_image E p (width self) (height self) = Some img
      /\ audio_readable E a = true
      /\ clip = built_clip E self scene is_first is_last (next_id w) img a.
Proof.
  intros Hrun.
  destruct (image_path scene) as [p|] eqn:Hp;
    [|rewrite compose_scene_missing in Hrun by (left; exact Hp); discriminate].
  destruct (audio_path scene) as [a|] eqn:Ha;
    [|rewrite compose_scene_missing in Hrun by (right; exact Ha); discriminate].
  pose proof (compose_scene_cases E self scene is_first is_last w p a Hp Ha) as H.
  destruct (load_image E p (width self) (height self)) as [img|] eqn:Himg;
    [|rewrite H in Hrun; discriminate].
  destruct (enable_transitions self && is_last && Qpositive (transition_duration self)
            && negb (bool_decide (is_Some (duration scene))));
    [rewrite H in Hrun; discriminate|].
  destruct (audio_readable E a) eqn:Haud; rewrite H in Hrun; [|discriminate].
  injection Hrun as <- <-. split; [reflexivity|].
  exists p, a, img. repeat split; assumption.
Qed.

(** A composable scene gives a clip. *)
Lemma compose_scene_composable E self scene is_first is_last w :
  composable E self scene = true ->
  exists clip, compose_scene E self scene is_first is_last w = (allocated w, inr clip).
Proof.
  unfold composable. intros Hc.
  destruct (image_path scene) as [p|] eqn:Hp; [|discriminate].
  destruct (audio_path scene) as [a|] eqn:Ha; [|discriminate].
  destruct (duration scene) as [d|] eqn:Hd; [|discriminate].
  apply andb_prop in Hc as [Himg Haud]. apply bool_decide_eq_true in Himg as [img Himg].
  pose proof (compose_scene_cases E self scene is_first is_last w p a Hp Ha) as H.
  rewrite Himg, Hd, Haud in H. simpl in H. rewrite andb_false_r in H.
  eexists. exact H.
Qed.

(** *** The worlds of a run *)

Lemma iter_allocated_next_id n w :
  next_id (Nat.iter n allocated w) = (next_id w + n)%nat.
Proof. induction n as [|n IH]; simpl; [lia|]. rewrite IH. lia. Qed.

Lemma iter_allocated_written n w :
  written (Nat.iter n allocated w) = written w.
Proof. induction n as [|n IH]; simpl; [reflexivity|exact IH]. Qed.

Lemma iter_allocated_open n w id :
  id ∈ open_clips (Nat.iter n allocated w)
  <-> id ∈ open_clips w \/ (next_id w <= id < next_id w + n)%nat.
Proof.
  induction n as [|n IH]; simpl.
  - split; [tauto | intros [H|H]; [exact H | lia]].
  - rewrite elem_of_union, elem_of_singleton, IH, iter_allocated_next_id.
    intuition lia.
Qed.

Lemma iter_allocated_shift n w :
  Nat.iter n allocated (allocated w) = Nat.iter (S n) allocated w.
Proof. symmetry. apply Nat.iter_succ_r. Qed.

(** *** The loop over the scenes *)

Lemma compose_loop_inr E self total scenes :
  forall i clips w w' out,
    compose_loop E self total i scenes clips w = (w', inr out) ->
    w' = Nat.iter (length scenes) allocated w
    /\ exists new, out = clips ++ new
                   /\ built_from E self total i (next_id w) scenes new.
Proof.
  induction scenes as [|scene rest IH]; intros i clips w w' out Hrun.
  - injection Hrun as <- <-. split; [reflexivity|].
    exists []. rewrite app_nil_r. split; [reflexivity | exact I].
  - simpl in Hrun. unfold bind in Hrun.
    destruct (compose_scene E self scene (i =? 0) (i =? total - 1) w)
      as [w1 [e|clip]] eqn:Hscene; [discriminate|].
    apply compose_scene_inr in Hscene as [-> Hclip].
    apply IH in Hrun as [-> (new & -> & Hnew)].
    split; [apply iter_allocated_shift|].
    exists (clip :: new). split; [rewrite <- app_assoc; reflexivity|].
    simpl. split; [exact Hclip | exact Hnew].
Qed.

Lemma compose_loop_total E self total scenes :
  forallb (composable E self) scenes = true ->
  forall i clips w,
    exists out, compose_loop E self total i scenes clips w
                = (Nat.iter (length scenes) allocated w, inr out).
Proof.
  induction scenes as [|scene rest IH]; intros Hall i clips w.
  - exists clips. reflexivity.
  - simpl in Hall. apply andb_prop in Hall as [Hscene Hrest].
    destruct (compose_scene_composable E self scene (i =? 0) (i =? total - 1) w Hscene)
      as [clip Hclip].
    destruct (IH Hrest (i + 1) (clips ++ [clip]) (allocated w)) as [out Hout].
    exists out. simpl. unfold bind. rewrite Hclip, Hout, iter_allocated_shift.
    reflexivity.
Qed.

(** The identities, durations and lengths of the clips of a run. *)
Lemma built_from_length E self total scenes :
  forall i id clips,
    built_from E self total i id scenes clips -> length clips = length scenes.
Proof.
  induction scenes as [|scene rest IH]; intros i id [|clip clips] H; simpl in *;
    try contradiction; [reflexivity|].
  destruct H as [_ H]. f_equal. exact (IH _ _ _ H).
Qed.

Lemma built_from_ids E self total scenes :
  forall i id clips,
    built_from E self total i id scenes clips ->
    map clip_id clips = seq id (length scenes).
Proof.
  induction scenes as [|scene rest IH]; intros i id [|clip clips] H; simpl in *;
    try contradiction; [reflexivity|].
  destruct H as [(p & a & img & _ & _ & _ & _ & ->) H]. simpl.
  f_equal. exact (IH _ _ _ H).
Qed.

Lemma built_from_durations E self total scenes :
  forall i id clips,
    built_from E self total i id scenes clips ->
    map clip_duration clips = map duration scenes.
Proof.
  induction scenes as [|scene rest IH]; intros i id [|clip clips] H; simpl in *;
    try contradiction; [reflexivity|].
  destruct H as [(p & a & img & _ & _ & _ & _ & ->) H]. simpl.
  f_equal. exact (IH _ _ _ H).
Qed.

Lemma built_from_effects E self total scenes :
  forall i id clips,
    built_from E self total i id scenes clips ->
    forall k clip,
      clips !! k = Some clip ->
      clip_effects clip
      = scene_effects self (i + Z.of_nat k =? 0) (i + Z.of_nat k =? total - 1).
Proof.
  induction scenes as [|scene rest IH]; intros i id [|clip clips] H k c Hk; simpl in *;
    try contradiction; [discriminate|].
  destruct H as [(p & a & img & _ & _ & _ & _ & Hclip) H].
  destruct k as [|k]; simpl in Hk.
  - injection Hk as <-. rewrite Hclip. simpl. rewrite Z.add_0_r. reflexivity.
  - rewrite (IH _ _ _ H k c Hk). f_equal; f_equal; lia.
Qed.

(** *** Closing, concatenating, encoding *)

Lemma close_all_run clips :
  forall w,
    close_all clips w
    = ({| next_id := next_id w;
          open_clips := foldl (fun O clip => O ∖ {[ clip_id clip ]}) (open_clips w) clips;
          written := written w |}, inr tt).
Proof.
  induction clips as [|clip rest IH]; intros w; simpl.
  - destruct w; reflexivity.
  - unfold bind, close. rewrite IH. reflexivity.
Qed.

Lemma elem_of_closed clips :
  forall (O : gset nat) id,
    id ∈ foldl (fun O clip => O ∖ {[ clip_id clip ]}) O clips
    <-> id ∈ O /\ ~ In id (map clip_id clips).
Proof.
  induction clips as [|clip rest IH]; intros O id; simpl.
  - tauto.
  - rewrite IH, elem_of_difference, elem_of_singleton. intuition congruence.
Qed.

(** The clip [concatenate_videoclips] makes of [clips] whose durations are
    [ds], under the identity [id]. *)
Lemma concatenate_videoclips_inr clips w w' final :
  concatenate_videoclips clips w = (w', inr final) ->
  clips <> []
  /\ w' = allocated w
  /\ exists ds,
      mapM clip_duration clips = Some ds
      /\ final = {| comp_id := next_id w;
                    comp_clips := zip clips (map (Qmax 0) (cumsum (0%Q :: ds)));
                    comp_duration := List.last (map (Qmax 0) (cumsum (0%Q :: ds))) 0%Q |}.
Proof.
  unfold concatenate_videoclips. intros H.
  destruct (mapM clip_duration clips) as [ds|]; [|discriminate].
  destruct clips as [|c clips]; [discriminate|].
  injection H as <- <-.
  split; [discriminate|]. split; [reflexivity|].
  exists ds. split; reflexivity.
Qed.

(** Everything a successful [compose] has done. *)
Lemma compose_inr E self script output_filename w w' path :
  compose E self script output_filename w = (w', inr path) ->
  exists clips final ds,
    built_from E self (Z.of_nat (length (scenes script))) 0 (next_id w)
      (scenes script) clips
    /\ scenes script <> []
    /\ mapM clip_duration clips = Some ds
    /\ final = {| comp_id := (next_id w + length (scenes script))%nat;
                  comp_clips := zip clips (map (Qmax 0) (cumsum (0%Q :: ds)));
                  comp_duration := List.last (map (Qmax 0) (cumsum (0%Q :: ds))) 0%Q |}
    /\ path = output_path_of E script output_filename
    /\ encoder_ok E final path (fps self) = true
    /\ written w' = (path, final) :: written w
    /\ next_id w' = S (next_id w + length (scenes script))
    /\ (forall id, id ∈ open_clips w'
                   <-> id ∈ open_clips w
                       /\ ~ (next_id w <= id <= next_id w + length (scenes script))%nat).
Proof.
  unfold compose, bind. intros H.
  destruct (compose_loop E self _ 0 (scenes script) [] w) as [w1 [e|clips]] eqn:Hloop;
    [discriminate|].
  apply compose_loop_inr in Hloop as [-> (new & Hclips & Hbuilt)].
  simpl in Hclips. subst clips.
  destruct (concatenate_videoclips new _) as [w2 [e|final]] eqn:Hcat; [discriminate|].
  apply concatenate_videoclips_inr in Hcat as (Hne & -> & ds & Hds & Hfinal).
  rewrite iter_allocated_next_id in Hfinal.
  unfold write_videofile in H. fold (output_path_of E script output_filename) in H.
  destruct (encoder_ok E final (output_path_of E script output_filename) (fps self))
    eqn:Henc; [|discriminate].
  unfold close in H. rewrite close_all_run in H. simpl in H.
  injection H as <- <-.
  pose proof (built_from_length _ _ _ _ _ _ _ Hbuilt) as Hlen.
  pose proof (built_from_ids _ _ _ _ _ _ _ Hbuilt) as Hids.
  exists new, final, ds.
  split; [exact Hbuilt|].
  split; [intros Hnil; apply Hne; rewrite Hnil in Hlen; destruct new;
          [reflexivity|discriminate]|].
  split; [exact Hds|]. split; [exact Hfinal|]. split; [reflexivity|].
  split; [exact Henc|]. simpl.
  split; [rewrite iter_allocated_written; reflexivity|].
  split; [rewrite iter_allocated_next_id; reflexivity|].
  intros id.
  rewrite elem_of_closed, elem_of_difference, elem_of_union, !elem_of_singleton,
    iter_allocated_open, iter_allocated_next_id, Hids, in_seq.
  rewrite Hfinal. simpl. intuition lia.
Qed.

Lemma mapM_Some_map {A B} (f : A -> option B) (l : list A) :
  forall k, mapM f l = Some k <-> map f l = map Some k.
Proof.
  intros k. rewrite mapM_Some. revert k.
  induction l as [|x l IH]; intros [|y k]; simpl; split; intros H;
    try (inversion H; fail); try constructor.
  - inversion H as [|? ? ? ? Hx Hl]; subst. rewrite Hx. f_equal. apply IH. exact Hl.
  - injection H as Hx Hl. exact Hx.
  - injection H as Hx Hl. apply IH. exact Hl.
Qed.

Lemma composable_durations E self scenes :
  forallb (composable E self) scenes = true ->
  exists ds, map duration scenes = map Some ds.
Proof.
  induction scenes as [|scene rest IH]; simpl; intros H.
  - exists []. reflexivity.
  - apply andb_prop in H as [Hs Hr]. destruct (IH Hr) as [ds Hds].
    unfold composable in Hs.
    destruct (image_path scene), (audio_path scene), (duration scene) as [d|];
      try discriminate.
    exists (d :: ds). simpl. rewrite Hds. reflexivity.
Qed.

(** Composable scenes, at least one, and an encoder that accepts the
    result: [compose] returns the output path. *)
Lemma compose_total E self script output_filename w :
  scenes script <> [] ->
  forallb (composable E self) (scenes script) = true ->
  (forall final,
      encoder_ok E final (output_path_of E script output_filename) (fps self) = true) ->
  exists w',
    compose E self script output_filename w
    = (w', inr (output_path_of E script output_filename)).
Proof.
  intros Hne Hall Henc.
  destruct (compose_loop_total E self (Z.of_nat (length (scenes script)))
              (scenes script) Hall 0 [] w) as [clips Hloop].
  pose proof Hloop as Hinv.
  apply compose_loop_inr in Hinv as [_ (new & Hclips & Hbuilt)].
  simpl in Hclips. subst new.
  destruct (composable_durations E self _ Hall) as [ds Hds].
  rewrite <- (built_from_durations _ _ _ _ _ _ _ Hbuilt) in Hds.
  apply mapM_Some_map in Hds.
  pose proof (built_from_length _ _ _ _ _ _ _ Hbuilt) as Hlen.
  unfold compose, bind. rewrite Hloop.
  unfold concatenate_videoclips. rewrite Hds.
  destruct clips as [|c clips];
    [destruct (scenes script); [contradiction|discriminate]|].
  unfold bind, fresh_clip, ret, write_videofile.
  fold (output_path_of E script output_filename).
  rewrite Henc. unfold close. rewrite close_all_run.
  eexists. reflexivity.
Qed.

(** *** Durations *)

Lemma Qmax_0_nonneg (q : Q) : (0 <= q)%Q -> (Qmax 0 q == q)%Q.
Proof. intros H. apply Q.max_r. exact H. Qed.

Lemma cumsum_last (ds : list Q) :
  forall acc,
    (0 <= acc)%Q -> Forall (Qle 0) ds ->
    (List.last (map (Qmax 0) (acc :: cumsum_from acc ds)) 0 == fold_left Qplus ds acc)%Q.
Proof.
  induction ds as [|d r IH]; intros acc Hacc Hds.
  - simpl. apply Qmax_0_nonneg. exact Hacc.
  - inversion Hds as [|? ? Hd Hr]; subst.
    change (List.last (map (Qmax 0) (acc :: cumsum_from acc (d :: r))) 0%Q)
      with (List.last (map (Qmax 0) ((acc + d)%Q :: cumsum_from (acc + d)%Q r)) 0%Q).
    apply IH; [|exact Hr].
    rewrite <- (Qplus_0_l 0). apply Qplus_le_compat; assumption.
Qed.

Lemma fold_left_Qplus_compat (ds : list Q) :
  forall a b, (a == b)%Q -> (fold_left Qplus ds a == fold_left Qplus ds b)%Q.
Proof.
  induction ds as [|d r IH]; intros a b Hab; simpl; [exact Hab|].
  apply IH. rewrite Hab. reflexivity.
Qed.

Lemma or_0_Some (d : Q) : (or_0 (Some d) == d)%Q.
Proof.
  unfold or_0. destruct (Qeq_bool d 0) eqn:H; [|reflexivity].
  apply Qeq_bool_eq in H. symmetry. exact H.
Qed.

Lemma total_duration_sum (scenes : list Scene) (ds : list Q) :
  map duration scenes = map Some ds ->
  forall acc,
    (fold_left (fun acc s => acc + or_0 (duration s)) scenes acc
     == fold_left Qplus ds acc)%Q.
Proof.
  revert ds. induction scenes as [|s rest IH]; intros [|d ds] H acc;
    try discriminate; simpl; [reflexivity|].
  injection H as Hd Hrest. rewrite Hd.
  rewrite (IH ds Hrest). apply fold_left_Qplus_compat.
  rewrite or_0_Some. reflexivity.
Qed.

Lemma resolved_nonneg E self scenes ds :
  forallb (resolved E self) scenes = true ->
  map duration scenes = map Some ds ->
  Forall (Qle 0) ds.
Proof.
  revert ds. induction scenes as [|s rest IH]; intros [|d ds] Hall H;
    try discriminate; [constructor|].
  simpl in Hall. apply andb_prop in Hall as [Hs Hr].
  injection H as Hd Hrest.
  constructor; [|exact (IH ds Hr Hrest)].
  unfold resolved in Hs. rewrite Hd in Hs. apply andb_prop in Hs as [_ Hs].
  apply Qle_bool_iff. exact Hs.
Qed.

Lemma resolved_composable E self scenes :
  forallb (resolved E self) scenes = true ->
  forallb (composable E self) scenes = true.
Proof.
  induction scenes as [|s rest IH]; simpl; [reflexivity|].
  intros H. apply andb_prop in H as [Hs Hr].
  unfold resolved in Hs. apply andb_prop in Hs as [Hs _].
  rewrite Hs, (IH Hr). reflexivity.
Qed.

(** *** The composed output *)

Lemma fst_zip_longer {A B} (l : list A) (k : list B) :
  (length l <= length k)%nat -> map fst (zip l k) = l.
Proof.
  revert k. induction l as [|x l IH]; intros [|y k] H; simpl in *;
    try reflexivity; try lia.
  f_equal. apply IH. lia.
Qed.

Lemma length_cumsum_from (l : list Q) : forall acc, length (cumsum_from acc l) = length l.
Proof. induction l as [|x l IH]; intros acc; simpl; [reflexivity|]. f_equal. apply IH. Qed.

(** The clips of the written video are the clips built for the scenes. *)
Lemma compose_clips E self script output_filename w w' path :
  compose E self script output_filename w = (w', inr path) ->
  exists final,
    written w' = (path, final) :: written w
    /\ path = output_path_of E script output_filename
    /\ built_from E self (Z.of_nat (length (scenes script))) 0 (next_id w)
         (scenes script) (map fst (comp_clips final))
    /\ exists ds,
        map duration (scenes script) = map Some ds
        /\ comp_duration final = List.last (map (Qmax 0) (cumsum (0%Q :: ds))) 0%Q.
Proof.
  intros H.
  apply compose_inr in H
    as (clips & final & ds & Hbuilt & _ & Hds & Hfinal & Hpath & _ & Hw & _).
  exists final. split; [exact Hw|]. split; [exact Hpath|].
  apply mapM_Some_map in Hds.
  assert (Hlen : length ds = length clips).
  { apply (f_equal (@length _)) in Hds. rewrite !length_map in Hds. symmetry. exact Hds. }
  rewrite Hfinal. simpl. split.
  - rewrite fst_zip_longer; [exact Hbuilt|].
    simpl. rewrite length_map, length_cumsum_from. lia.
  - exists ds. split; [|reflexivity].
    rewrite <- Hds. symmetry. exact (built_from_durations _ _ _ _ _ _ _ Hbuilt).
Qed.

(** C1. Every clip [compose_scene] returns has the duration of its scene.
    For a script of at least one scene whose scenes all have their image,
    audio and duration resolved (the files readable, the duration a length
    of time, that is not negative) and an encoder that accepts the result,
    [compose] returns the output path, the video written there has one clip
    per scene with the scene's duration, and its total duration is the sum
    of the durations of the scenes. *)
Theorem compose_total_duration E self script output_filename w :
  scenes script <> [] ->
  forallb (resolved E self) (scenes script) = true ->
  (forall final,
      encoder_ok E final (output_path_of E script output_filename) (fps self) = true) ->
  (forall scene is_first is_last w0 w1 clip,
      compose_scene E self scene is_first is_last w0 = (w1, inr clip) ->
      clip_duration clip = duration scene)
  /\ exists w' final,
      compose E self script output_filename w
      = (w', inr (output_path_of E script output_filename))
      /\ written w' = (output_path_of E script output_filename, final) :: written w
      /\ map clip_duration (map fst (comp_clips final)) = map duration (scenes script)
      /\ (comp_duration final == total_duration script)%Q.
Proof.
  intros Hne Hres Henc. split.
  - intros scene is_first is_last w0 w1 clip Hrun.
    apply compose_scene_inr in Hrun as [_ (p & a & img & _ & _ & _ & _ & ->)].
    reflexivity.
  - destruct (compose_total E self script output_filename w Hne
                (resolved_composable E self _ Hres) Henc) as [w' Hrun].
    destruct (compose_clips E self script output_filename w w' _ Hrun)
      as (final & Hw & _ & Hbuilt & ds & Hds & Hdur).
    exists w', final. split; [exact Hrun|]. split; [exact Hw|].
    split; [exact (built_from_durations _ _ _ _ _ _ _ Hbuilt)|].
    rewrite Hdur. unfold total_duration.
    rewrite (total_duration_sum _ ds Hds 0%Q).
    apply (cumsum_last ds 0%Q); [apply Qle_refl|].
    exact (resolved_nonneg E self _ ds Hres Hds).
Qed.

Lemma compose_total_duration_witness :
  exists w' final,
    compose (studio true) (small_composer 0.5) demo_script None empty_world
    = (w', inr (output_path_of (studio true) demo_script None))
    /\ written w' = [(output_path_of (studio true) demo_script None, final)]
    /\ map clip_duration (map fst (comp_clips final)) = [Some 2.5%Q; Some 4%Q; Some 1.25%Q]
    /\ (comp_duration final == total_duration demo_script)%Q.
Proof.
  refine (proj2 (compose_total_duration (studio true) (small_composer 0.5) demo_script
                   None empty_world _ _ _)).
  - discriminate.
  - vm_compute. reflexivity.
  - intros final. reflexivity.
Defined.

(** *** Fades *)

Lemma scene_effects_fades (self : VideoComposer) (is_first is_last : bool) :
  enable_transitions self = true ->
  Qpositive (transition_duration self) = true ->
  ((exists d, In (FadeIn d) (scene_effects self is_first is_last)) <-> is_first = true)
  /\ ((exists d, In (FadeOut d) (scene_effects self is_first is_last)) <-> is_last = true).
Proof.
  intros Ht Hd. unfold scene_effects. rewrite Ht, Hd.
  destruct is_first, is_last; simpl;
    (split; split; intros H;
     match goal with
     | |- _ = _ => first [ reflexivity
                         | destruct H as [d H]; simpl in H; intuition discriminate ]
     | |- exists _, _ =>
         first [ discriminate
               | eexists; simpl; first [ left; reflexivity | right; left; reflexivity ] ]
     end).
Qed.

(** C3. With transitions enabled, a transition duration above zero, and a
    script of more than one scene that [compose] can work with: in the video
    that is written, the clip of the first scene and only that clip has a
    fade-in, the clip of the last scene and only that clip has a fade-out;
    a clip in between has neither. *)
Theorem compose_fade_policy E self script output_filename w :
  enable_transitions self = true ->
  Qpositive (transition_duration self) = true ->
  (1 < length (scenes script))%nat ->
  forallb (composable E self) (scenes script) = true ->
  (forall final,
      encoder_ok E final (output_path_of E script output_filename) (fps self) = true) ->
  exists w' final,
    compose E self script output_filename w
    = (w', inr (output_path_of E script output_filename))
    /\ written w' = (output_path_of E script output_filename, final) :: written w
    /\ length (comp_clips final) = length (scenes script)
    /\ fade_policy (map fst (comp_clips final))
    /\ (forall k clip,
          (0 < k)%nat -> (S k < length (scenes script))%nat ->
          map fst (comp_clips final) !! k = Some clip ->
          clip_effects clip = []).
Proof.
  intros Ht Hd Hn Hall Henc.
  assert (Hne : scenes script <> []) by (destruct (scenes script); [simpl in Hn; lia|discriminate]).
  destruct (compose_total E self script output_filename w Hne Hall Henc) as [w' Hrun].
  destruct (compose_clips E self script output_filename w w' _ Hrun)
    as (final & Hw & _ & Hbuilt & _).
  pose proof (built_from_length _ _ _ _ _ _ _ Hbuilt) as Hlen.
  exists w', final. split; [exact Hrun|]. split; [exact Hw|].
  split; [rewrite length_map in Hlen; exact Hlen|].
  split.
  - intros k clip Hk.
    pose proof (built_from_effects _ _ _ _ _ _ _ Hbuilt k clip Hk) as Heff.
    unfold has_fade_in, has_fade_out. rewrite Heff, Hlen.
    destruct (scene_effects_fades self (0 + Z.of_nat k =? 0)
                (0 + Z.of_nat k =? Z.of_nat (length (scenes script)) - 1) Ht Hd)
      as [Hin Hout].
    rewrite Hin, Hout, !Z.eqb_eq. lia.
  - intros k clip Hk0 HkN Hk.
    rewrite (built_from_effects _ _ _ _ _ _ _ Hbuilt k clip Hk).
    unfold scene_effects. rewrite Ht.
    destruct (Z.eqb_spec (0 + Z.of_nat k) 0); [lia|].
    destruct (Z.eqb_spec (0 + Z.of_nat k) (Z.of_nat (length (scenes script)) - 1)); [lia|].
    reflexivity.
Qed.

Lemma compose_fade_policy_witness :
  exists w' final,
    compose (studio true) (small_composer 0.5) demo_script None empty_world
    = (w', inr (output_path_of (studio true) demo_script None))
    /\ written w' = [(output_path_of (studio true) demo_script None, final)]
    /\ length (comp_clips final) = 3%nat
    /\ fade_policy (map fst (comp_clips final))
    /\ (forall k clip,
          (0 < k)%nat -> (S k < 3)%nat ->
          map fst (comp_clips final) !! k = Some clip ->
          clip_effects clip = []).
Proof.
  refine (compose_fade_policy (studio true) (small_composer 0.5) demo_script
            None empty_world _ _ _ _ _).
  - reflexivity.
  - reflexivity.
  - simpl. lia.
  - vm_compute. reflexivity.
  - intros final. reflexivity.
Defined.

(** With transitions enabled and a transition duration of zero, the clip of
    the first scene of a three-scene script has no fade-in. *)
Lemma zero_transition_duration_no_fade :
  enable_transitions (small_composer 0) = true
  /\ (1 < length (scenes demo_script))%nat
  /\ exists w' final,
      compose (studio true) (small_composer 0) demo_script None empty_world
      = (w', inr (output_path_of (studio true) demo_script None))
      /\ written w' = [(output_path_of (studio true) demo_script None, final)]
      /\ ~ fade_policy (map fst (comp_clips final)).
Proof.
  split; [reflexivity|]. split; [simpl; lia|].
  destruct (compose_total (studio true) (small_composer 0) demo_script None empty_world)
    as [w' Hrun]; [discriminate | vm_compute; reflexivity | intros; reflexivity |].
  destruct (compose_clips _ _ _ _ _ _ _ Hrun) as (final & Hw & _ & Hbuilt & _).
  exists w', final. split; [exact Hrun|]. split; [exact Hw|].
  intros Hpolicy.
  destruct (map fst (comp_clips final)) as [|clip clips] eqn:Hclips;
    [simpl in Hbuilt; contradiction|].
  pose proof (built_from_effects _ _ _ _ _ _ _ Hbuilt 0%nat clip eq_refl) as Heff.
  destruct (Hpolicy 0%nat clip eq_refl) as [Hin _].
  destruct (proj2 Hin eq_refl) as [d Hd].
  rewrite Heff in Hd. vm_compute in Hd. exact Hd.
Qed.

(** *** Release of the clips *)

(** Composable scenes, at least one, and an encoder that refuses: the error
    leaves [compose] right after the encoding step. *)
Lemma compose_encoder_fails E self script output_filename w :
  scenes script <> [] ->
  forallb (composable E self) (scenes script) = true ->
  (forall final,
      encoder_ok E final (output_path_of E script output_filename) (fps self) = false) ->
  compose E self script output_filename w
  = (allocated (Nat.iter (length (scenes script)) allocated w), inl EncoderError).
Proof.
  intros Hne Hall Henc.
  destruct (compose_loop_total E self (Z.of_nat (length (scenes script)))
              (scenes script) Hall 0 [] w) as [clips Hloop].
  pose proof Hloop as Hinv.
  apply compose_loop_inr in Hinv as [_ (new & Hclips & Hbuilt)].
  simpl in Hclips. subst new.
  destruct (composable_durations E self _ Hall) as [ds Hds].
  rewrite <- (built_from_durations _ _ _ _ _ _ _ Hbuilt) in Hds.
  apply mapM_Some_map in Hds.
  pose proof (built_from_length _ _ _ _ _ _ _ Hbuilt) as Hlen.
  unfold compose, bind. rewrite Hloop.
  unfold concatenate_videoclips. rewrite Hds.
  destruct clips as [|c clips];
    [destruct (scenes script); [contradiction|discriminate]|].
  unfold bind, fresh_clip, ret, write_videofile.
  fold (output_path_of E script output_filename).
  rewrite Henc. reflexivity.
Qed.

Lemma empty_world_ok : world_ok empty_world.
Proof. intros id H. simpl in H. exfalso. exact (not_elem_of_empty id H). Qed.

(** C5. When [compose] returns (the encoding has succeeded), every clip it
    created, the scene clips and the concatenated one, has been closed, and
    the open clips are those that were open before the call.  For
    composable scenes, at least one, and an encoder that accepts the result
    this is what happens. *)
Theorem compose_releases_clips E self script output_filename w :
  world_ok w ->
  (forall w' path,
      compose E self script output_filename w = (w', inr path) ->
      clips_released w w' /\ open_clips w' = open_clips w)
  /\ (scenes script <> [] ->
      forallb (composable E self) (scenes script) = true ->
      (forall final,
          encoder_ok E final (output_path_of E script output_filename) (fps self) = true) ->
      exists w',
        compose E self script output_filename w
        = (w', inr (output_path_of E script output_filename))
        /\ next_id w' = S (next_id w + length (scenes script))
        /\ clips_released w w' /\ open_clips w' = open_clips w).
Proof.
  intros Hok.
  assert (Hgen : forall w' path,
             compose E self script output_filename w = (w', inr path) ->
             next_id w' = S (next_id w + length (scenes script))
             /\ clips_released w w' /\ open_clips w' = open_clips w).
  { intros w' path Hrun.
    apply compose_inr in Hrun
      as (clips & final & ds & _ & _ & _ & _ & _ & _ & _ & Hnext & Hopen).
    split; [exact Hnext|]. split.
    - intros id Hid Hin. apply Hopen in Hin as [_ Hout]. lia.
    - apply set_eq. intros id. rewrite Hopen. split; [tauto|].
      intros Hin. split; [exact Hin|]. specialize (Hok id Hin). lia. }
  split.
  - intros w' path Hrun. destruct (Hgen w' path Hrun) as (_ & H1 & H2). split; assumption.
  - intros Hne Hall Henc.
    destruct (compose_total E self script output_filename w Hne Hall Henc) as [w' Hrun].
    exists w'. split; [exact Hrun|]. exact (Hgen w' _ Hrun).
Qed.

Lemma compose_releases_clips_witness :
  exists w',
    compose (studio true) (small_composer 0.5) demo_script None empty_world
    = (w', inr (output_path_of (studio true) demo_script None))
    /\ next_id w' = 4%nat
    /\ clips_released empty_world w' /\ open_clips w' = ∅.
Proof.
  refine (proj2 (compose_releases_clips (studio true) (small_composer 0.5) demo_script
                   None empty_world empty_world_ok) _ _ _).
  - discriminate.
  - vm_compute. reflexivity.
  - intros final. reflexivity.
Defined.

(** When the encoder refuses the video of the three demo scenes, the error
    leaves [compose] and the three scene clips and the concatenated clip
    stay open. *)
Lemma encoder_failure_leaves_clips_open :
  world_ok empty_world
  /\ exists w',
      compose (studio false) (small_composer 0.5) demo_script None empty_world
      = (w', inl EncoderError)
      /\ next_id w' = 4%nat
      /\ (forall id, (id < 4)%nat -> id ∈ open_clips w')
      /\ ~ clips_released empty_world w'.
Proof.
  split; [exact empty_world_ok|].
  eexists. split.
  - apply compose_encoder_fails;
      [discriminate | vm_compute; reflexivity | intros; reflexivity].
  - assert (Hopen : forall id, (id < 4)%nat ->
               id ∈ open_clips (allocated (Nat.iter (length (scenes demo_script))
                                             allocated empty_world))).
    { intros id Hid. change (allocated (Nat.iter (length (scenes demo_script)) allocated empty_world))
        with (Nat.iter 4 allocated empty_world).
      apply iter_allocated_open. right. simpl. lia. }
    split; [reflexivity|]. split; [exact Hopen|].
    intros Hrel. apply (Hrel 0%nat); [simpl; lia | apply Hopen; lia].
Qed.

(** *** The overlay renderer *)

Lemma dimensions_imap2 (g : nat -> nat -> Pixel -> Pixel) (img : Frame) :
  dimensions (imap (fun py row => imap (g py) row) img) = dimensions img.
Proof.
  unfold dimensions. revert g.
  induction img as [|row img IH]; intros g; simpl; [reflexivity|].
  f_equal; [apply length_imap|].
  exact (IH (fun py => g (S py))).
Qed.

Lemma dimensions_draw_rectangle img x0 y0 x1 y1 fill :
  dimensions (draw_rectangle img x0 y0 x1 y1 fill) = dimensions img.
Proof. unfold draw_rectangle. apply dimensions_imap2. Qed.

Lemma dimensions_draw_text E img xy line fill :
  dimensions (draw_text E img xy line fill) = dimensions img.
Proof. unfold draw_text. apply dimensions_imap2. Qed.

Lemma dimensions_draw_lines E self lines :
  forall img y_start line_height i,
    dimensions (draw_lines E self img y_start line_height i lines) = dimensions img.
Proof.
  induction lines as [|line rest IH]; intros img y_start line_height i; simpl;
    [reflexivity|].
  destruct (textbbox E line) as [[[b0 b1] b2] b3].
  rewrite IH, !dimensions_draw_text. reflexivity.
Qed.

(** C9. For every frame and every text, the frame the overlay renderer
    returns has the dimensions of the frame it was given: the same number
    of rows, and each row of the same width. *)
Theorem _add_subtitle_to_image_dimensions E self (img_array : Frame) (text : str) :
  dimensions (_add_subtitle_to_image E self img_array text) = dimensions img_array
  /\ length (_add_subtitle_to_image E self img_array text) = length img_array.
Proof.
  assert (H : dimensions (_add_subtitle_to_image E self img_array text)
              = dimensions img_array).
  { unfold _add_subtitle_to_image.
    rewrite dimensions_draw_lines, dimensions_draw_rectangle. reflexivity. }
  split; [exact H|].
  apply (f_equal (@length nat)) in H. unfold dimensions in H.
  rewrite !length_map in H. exact H.
Qed.

(** C6. When the narration of a scene is the empty string the overlay is
    skipped entirely: the renderer is called at one place only, line 127,
    behind the guard of line 126, which the empty narration does not pass;
    so the frame of the clip that [compose_scene] returns is the resized
    image as loaded, pixel for pixel, whatever the switches of the
    composer; and [compose_scene] does return such a clip when the files of
    the scene can be read. *)
Theorem empty_narration_skips_overlay E self scene is_first is_last w :
  narration scene = [] ->
  (forall w' clip,
      compose_scene E self scene is_first is_last w = (w', inr clip) ->
      exists p, image_path scene = Some p
                /\ load_image E p (width self) (height self) = Some (clip_img clip))
  /\ (composable E self scene = true ->
      exists clip p,
        compose_scene E self scene is_first is_last w = (allocated w, inr clip)
        /\ image_path scene = Some p
        /\ load_image E p (width self) (height self) = Some (clip_img clip)).
Proof.
  intros Hn.
  assert (Hgen : forall w' clip,
             compose_scene E self scene is_first is_last w = (w', inr clip) ->
             exists p, image_path scene = Some p
                       /\ load_image E p (width self) (height self) = Some (clip_img clip)).
  { intros w' clip Hrun.
    apply compose_scene_inr in Hrun as [_ (p & a & img & Hp & _ & Himg & _ & ->)].
    exists p. split; [exact Hp|].
    simpl. unfold scene_frame. rewrite Hn. simpl. rewrite andb_false_r. exact Himg. }
  split; [exact Hgen|].
  intros Hc.
  destruct (compose_scene_composable E self scene is_first is_last w Hc) as [clip Hrun].
  destruct (Hgen _ _ Hrun) as (p & Hp & Himg).
  exists clip, p. repeat split; assumption.
Qed.

Lemma empty_narration_skips_overlay_witness :
  exists clip p,
    compose_scene (studio true) (small_composer 0.5) (staged 3 [] (Some 1.25%Q)) false true
      empty_world
    = (allocated empty_world, inr clip)
    /\ image_path (staged 3 [] (Some 1.25%Q)) = Some p
    /\ load_image (studio true) p (width (small_composer 0.5)) (height (small_composer 0.5))
       = Some (clip_img clip).
Proof.
  refine (proj2 (empty_narration_skips_overlay (studio true) (small_composer 0.5)
                   (staged 3 [] (Some 1.25%Q)) false true empty_world eq_refl) _).
  vm_compute. reflexivity.
Defined.

(** *** Resolution presets *)

Lemma RESOLUTION_PRESETS_1080p : RESOLUTION_PRESETS !! u "1080p" = Some (1920, 1080).
Proof. vm_compute. reflexivity. Qed.

Lemma RESOLUTION_PRESETS_4k : RESOLUTION_PRESETS !! u "4k" = Some (3840, 2160).
Proof. vm_compute. reflexivity. Qed.

Lemma RESOLUTION_PRESETS_other (resolution : str) :
  resolution ∉ [u "720p"; u "1080p"; u "1440p"; u "4k"] ->
  RESOLUTION_PRESETS !! resolution = None.
Proof.
  intros H. rewrite !not_elem_of_cons in H. destruct H as (H1 & H2 & H3 & H4 & _).
  unfold RESOLUTION_PRESETS.
  rewrite !lookup_insert_ne by (intros Heq; symmetry in Heq; contradiction).
  apply lookup_singleton_ne. intros Heq. symmetry in Heq. contradiction.
Qed.

(** The constructor of the pipeline, collaborator by collaborator. *)
Lemma DDalkkakPipeline_init_eq L keys image_provider target_duration test_mode
    subtitles transitions (resolution : str) :
  DDalkkakPipeline_init L keys image_provider target_duration test_mode subtitles
    transitions resolution
  = match ScriptGenerator_init L keys None test_mode,
          ImageGenerator_init L keys (if test_mode then u "placeholder" else image_provider)
    with
    | Some script_generator, Some image_generator =>
        Some {| script_gen := script_generator;
                image_gen := image_generator;
                tts_gen := {| language := TTS_LANGUAGE; slow := TTS_SLOW |};
                video_composer :=
                  {| width := fst (default (1920, 1080) (RESOLUTION_PRESETS !! resolution));
                     height := snd (default (1920, 1080) (RESOLUTION_PRESETS !! resolution));
                     fps := DEFAULT_FPS;
                     enable_subtitles := subtitles;
                     enable_transitions := transitions;
                     transition_duration := 0.5 |};
                target_duration := target_duration;
                test_mode := test_mode;
                resolution := resolution |}
    | _, _ => None
    end.
Proof.
  unfold DDalkkakPipeline_init. rewrite RESOLUTION_PRESETS_1080p.
  destruct (default (1920, 1080) (RESOLUTION_PRESETS !! resolution)) as [wd ht].
  destruct (ScriptGenerator_init L keys None test_mode); [|reflexivity].
  destruct (ImageGenerator_init L keys _); reflexivity.
Qed.

(** In test mode no client is built. *)
Lemma collaborators_in_test_mode L keys :
  ScriptGenerator_init L keys None true = Some {| use_placeholder := true |}
  /\ ImageGenerator_init L keys (u "placeholder") = Some {| provider := u "placeholder" |}.
Proof. split; reflexivity. Qed.

(** C7. A pipeline requested with resolution "4k" has a composer with a
    frame of exactly 3840 by 2160, and a pipeline requested with a key
    that is none of "720p", "1080p", "1440p" and "4k" has the frame of the
    "1080p" preset, 1920 by 1080.  The resolution has no part in whether
    the pipeline is built: the constructor raises only when the client of
    a collaborator cannot be built, so a pipeline that is built for one
    resolution key is built for every other; in test mode, where no client
    is built, it is built whatever the arguments. *)
Theorem resolution_selection L keys image_provider target_duration test_mode
    enable_subtitles enable_transitions :
  (forall pipeline,
      DDalkkakPipeline_init L keys image_provider target_duration test_mode
        enable_subtitles enable_transitions (u "4k") = Some pipeline ->
      width (video_composer pipeline) = 3840
      /\ height (video_composer pipeline) = 2160)
  /\ (forall resolution pipeline,
        resolution ∉ [u "720p"; u "1080p"; u "1440p"; u "4k"] ->
        DDalkkakPipeline_init L keys image_provider target_duration test_mode
          enable_subtitles enable_transitions resolution = Some pipeline ->
        width (video_composer pipeline) = 1920
        /\ height (video_composer pipeline) = 1080)
  /\ (forall resolution other,
        is_Some (DDalkkakPipeline_init L keys image_provider target_duration test_mode
                   enable_subtitles enable_transitions resolution) ->
        is_Some (DDalkkakPipeline_init L keys image_provider target_duration test_mode
                   enable_subtitles enable_transitions other))
  /\ (forall resolution,
        test_mode = true ->
        is_Some (DDalkkakPipeline_init L keys image_provider target_duration test_mode
                   enable_subtitles enable_transitions resolution)).
Proof.
  split; [|split; [|split]].
  - intros pipeline H. rewrite DDalkkakPipeline_init_eq in H.
    destruct (ScriptGenerator_init L keys None test_mode); [|discriminate H].
    destruct (ImageGenerator_init L keys _); [|discriminate H].
    injection H as <-. cbn [video_composer width height].
    rewrite RESOLUTION_PRESETS_4k. split; reflexivity.
  - intros resolution pipeline Hother H. rewrite DDalkkakPipeline_init_eq in H.
    destruct (ScriptGenerator_init L keys None test_mode); [|discriminate H].
    destruct (ImageGenerator_init L keys _); [|discriminate H].
    injection H as <-. cbn [video_composer width height].
    rewrite (RESOLUTION_PRESETS_other resolution Hother). split; reflexivity.
  - intros resolution other. rewrite !DDalkkakPipeline_init_eq.
    destruct (ScriptGenerator_init L keys None test_mode);
      [|intros [x Hx]; discriminate Hx].
    destruct (ImageGenerator_init L keys _); [|intros [x Hx]; discriminate Hx].
    intros _. eexists. reflexivity.
  - intros resolution ->. rewrite DDalkkakPipeline_init_eq.
    destruct (collaborators_in_test_mode L keys) as [-> ->]. eexists. reflexivity.
Qed.

Lemma resolution_selection_witness :
  (exists pipeline,
      DDalkkakPipeline_init sdk openai_key_only (u "openai") 180 false true true (u "4k")
      = Some pipeline
      /\ width (video_composer pipeline) = 3840
      /\ height (video_composer pipeline) = 2160)
  /\ (exists pipeline,
        DDalkkakPipeline_init sdk openai_key_only (u "openai") 180 false true true (u "8k")
        = Some pipeline
        /\ width (video_composer pipeline) = 1920
        /\ height (video_composer pipeline) = 1080).
Proof.
  pose proof (resolution_selection sdk openai_key_only (u "openai") 180 false true true)
    as (H4k & Hother & _ & _).
  split.
  - destruct (DDalkkakPipeline_init sdk openai_key_only (u "openai") 180 false true true
                (u "4k")) as [pipeline|] eqn:Hinit; [|vm_compute in Hinit; discriminate Hinit].
    exists pipeline. split; [reflexivity | exact (H4k pipeline eq_refl)].
  - destruct (DDalkkakPipeline_init sdk openai_key_only (u "openai") 180 false true true
                (u "8k")) as [pipeline|] eqn:Hinit; [|vm_compute in Hinit; discriminate Hinit].
    exists pipeline. split; [reflexivity|].
    refine (Hother (u "8k") pipeline _ Hinit).
    rewrite !not_elem_of_cons. repeat split; try discriminate.
    apply not_elem_of_nil.
Defined.

(** *** The script collaborator *)

Lemma num_scenes_for_min (target_duration : Z) : 5 <= num_scenes_for target_duration.
Proof. unfold num_scenes_for. lia. Qed.

(** C8. For every target duration the number of scenes asked for is
    [max(5, target_duration // 18)], at least 5.  In placeholder mode the
    script has [min] of that number and 5 scenes, that is exactly five,
    numbered 1, 2, 3, 4, 5.  Otherwise the number asked for is put in the
    request to the language model, and the script has the scenes of the
    answer, numbered as the answer numbers them. *)
Theorem generate_scene_count ask_model (prompt : str) (target_duration : Z) :
  num_scenes_for target_duration = Z.max 5 (target_duration / 18)
  /\ 5 <= num_scenes_for target_duration
  /\ (exists script,
         generate ask_model {| use_placeholder := true |} prompt target_duration
         = Some script
         /\ Z.of_nat (length (scenes script)) = Z.min (num_scenes_for target_duration) 5
         /\ map scene_number (scenes script) = [1; 2; 3; 4; 5])
  /\ generate ask_model {| use_placeholder := false |} prompt target_duration
     = match ask_model (user_message prompt (num_scenes_for target_duration)
                          target_duration) with
       | Some (data_title, data_scenes) =>
           Some {| title := data_title; scenes := map scene_of_entry data_scenes |}
       | None => None
       end
  /\ (forall data_title data_scenes,
        ask_model (user_message prompt (num_scenes_for target_duration) target_duration)
        = Some (data_title, data_scenes) ->
        exists script,
          generate ask_model {| use_placeholder := false |} prompt target_duration
          = Some script
          /\ length (scenes script) = length data_scenes
          /\ map scene_number (scenes script) = map (fun s => fst (fst s)) data_scenes).
Proof.
  pose proof (num_scenes_for_min target_duration) as Hmin.
  split; [reflexivity|]. split; [exact Hmin|]. split; [|split].
  - unfold generate. simpl. eexists. split; [reflexivity|].
    unfold _generate_placeholder. simpl.
    replace (Z.min (num_scenes_for target_duration) 5) with 5 by lia.
    split; reflexivity.
  - reflexivity.
  - intros data_title data_scenes Hask. unfold generate. simpl. rewrite Hask.
    eexists. split; [reflexivity|]. simpl. split; [apply length_map|].
    rewrite map_map. apply map_ext. intros [[n narr] img]. reflexivity.
Qed.

(** For the target duration 180, ten scenes are asked for (one per 18
    seconds), and the placeholder script has five. *)
Lemma placeholder_script_has_five_scenes :
  Z.max 5 (180 / 18) = 10
  /\ exists script,
      generate (fun _ => None) {| use_placeholder := true |} (u "test") 180 = Some script
      /\ Z.of_nat (length (scenes script)) = 5
      /\ Z.of_nat (length (scenes script)) <> Z.max 5 (180 / 18).
Proof.
  split; [reflexivity|].
  eexists. split; [reflexivity|]. split; [reflexivity|]. vm_compute. discriminate.
Qed.


(** ** Further properties of the wrapping *)

Lemma visible_lstrip (s : str) : visible (lstrip s) = visible s.
Proof.
  induction s as [|c s IH]; simpl; [reflexivity|].
  destruct (isspace c) eqn:Hc; simpl; rewrite ?Hc; simpl; [exact IH | reflexivity].
Qed.

Lemma visible_strip (s : str) : visible (strip s) = visible s.
Proof.
  unfold strip, rstrip, visible.
  rewrite List.filter_rev. fold (visible (lstrip (rev (lstrip s)))).
  rewrite visible_lstrip. unfold visible.
  rewrite List.filter_rev, rev_involutive. apply visible_lstrip.
Qed.

Lemma visible_app (s t : str) : visible (s ++ t) = visible s ++ visible t.
Proof. apply List.filter_app. Qed.

Lemma flat_map_visible_snoc (lines : list str) (line : str) :
  flat_map visible (lines ++ [line]) = flat_map visible lines ++ visible line.
Proof. rewrite flat_map_app. simpl. rewrite app_nil_r. reflexivity. Qed.

Lemma wrap_step_eq (lines : list str) (current_line : str) (c : char) :
  wrap_step (lines, current_line) c
  = if (max_chars_per_line <=? Z.of_nat (length (current_line ++ [c])))
       && char_in c break_chars
    then (lines ++ [strip (current_line ++ [c])], [])
    else (lines, current_line ++ [c]).
Proof. reflexivity. Qed.

(** What the loop keeps: the visible text of the lines and of the current
    line is the visible text read so far. *)
Lemma wrap_step_visible (text : str) :
  forall lines current_line,
    flat_map visible (fst (fold_left wrap_step text (lines, current_line)))
    ++ visible (snd (fold_left wrap_step text (lines, current_line)))
    = flat_map visible lines ++ visible current_line ++ visible text.
Proof.
  induction text as [|c text IH]; intros lines current_line.
  - simpl. rewrite app_nil_r. reflexivity.
  - cbn [fold_left]. rewrite wrap_step_eq.
    change (visible (c :: text)) with (visible ([c] ++ text)).
    destruct ((max_chars_per_line <=? Z.of_nat (length (current_line ++ [c])))
              && char_in c break_chars).
    + rewrite IH, flat_map_visible_snoc, visible_strip, !visible_app. simpl.
      rewrite <- !app_assoc. reflexivity.
    + rewrite IH, !visible_app, <- !app_assoc. reflexivity.
Qed.

Lemma wrap_step_visible_eq (text : str) (lines lines' : list str)
    (current_line current_line' : str) :
  fold_left wrap_step text (lines, current_line) = (lines', current_line') ->
  flat_map visible lines' ++ visible current_line'
  = flat_map visible lines ++ visible current_line ++ visible text.
Proof.
  intros H. pose proof (wrap_step_visible text lines current_line) as H'.
  rewrite H in H'. exact H'.
Qed.

(** X1. Wrapping loses nothing but whitespace: the code points of the
    wrapped lines that are not whitespace are, in order, those of the
    text. *)
Theorem wrap_lines_keeps_visible_text (text : str) :
  flat_map visible (wrap_lines text) = visible text.
Proof.
  unfold wrap_lines.
  destruct (fold_left wrap_step text ([], [])) as [lines current_line] eqn:Hloop.
  apply wrap_step_visible_eq in Hloop. simpl in Hloop.
  destruct current_line as [|c rest]; cbn [truthy].
  - change (visible []) with (@nil char) in Hloop. rewrite app_nil_r in Hloop.
    exact Hloop.
  - rewrite flat_map_visible_snoc, visible_strip. exact Hloop.
Qed.

(** While the current line stays under 40 code points the loop only
    appends to it. *)
Lemma wrap_step_short (text : str) :
  forall lines current_line,
    Z.of_nat (length current_line + length text) < max_chars_per_line ->
    fold_left wrap_step text (lines, current_line) = (lines, current_line ++ text).
Proof.
  induction text as [|c text IH]; intros lines current_line Hlen.
  - simpl. rewrite app_nil_r. reflexivity.
  - cbn [fold_left]. rewrite wrap_step_eq.
    destruct (Z.leb_spec max_chars_per_line (Z.of_nat (length (current_line ++ [c]))))
      as [Hge|Hlt].
    + rewrite length_app in Hge. simpl in Hge, Hlen. lia.
    + simpl. rewrite IH; [rewrite <- app_assoc; reflexivity|].
      rewrite length_app. simpl in *. lia.
Qed.

(** X2. A text of fewer than 40 code points is never wrapped nor
    truncated: the empty text gives no line at all, any other text gives
    one line, the text without the whitespace at its ends. *)
Theorem wrap_lines_short_text (text : str) :
  Z.of_nat (length text) < max_chars_per_line ->
  wrap_lines text = (if truthy text then [strip text] else [])
  /\ subtitle_lines text = wrap_lines text.
Proof.
  intros Hlen.
  assert (Hw : wrap_lines text = (if truthy text then [strip text] else [])).
  { unfold wrap_lines. rewrite wrap_step_short by (simpl; lia). reflexivity. }
  split; [exact Hw|].
  unfold subtitle_lines. rewrite Hw. destruct (truthy text); reflexivity.
Qed.

Lemma wrap_lines_short_text_witness :
  wrap_lines (u "  It is still there. ") = [u "It is still there."]
  /\ subtitle_lines (u "  It is still there. ") = wrap_lines (u "  It is still there. ").
Proof.
  refine (wrap_lines_short_text (u "  It is still there. ") _).
  vm_compute. reflexivity.
Defined.

(** Without a break character the loop only appends to the current line. *)
Lemma wrap_step_no_break (text : str) :
  forall lines current_line,
    Forall (fun c => char_in c break_chars = false) text ->
    fold_left wrap_step text (lines, current_line) = (lines, current_line ++ text).
Proof.
  induction text as [|c text IH]; intros lines current_line Hno.
  - simpl. rewrite app_nil_r. reflexivity.
  - inversion Hno as [|? ? Hc Hrest]; subst.
    cbn [fold_left]. rewrite wrap_step_eq, Hc, andb_false_r.
    rewrite IH by exact Hrest. rewrite <- app_assoc. reflexivity.
Qed.

(** X3. Lines end only at a break character: a text that has none (no
    space, no clause or sentence punctuation) stays on one line however
    long it is. *)
Theorem wrap_lines_without_break_chars (text : str) :
  Forall (fun c => char_in c break_chars = false) text ->
  wrap_lines text = (if truthy text then [strip text] else []).
Proof.
  intros Hno. unfold wrap_lines. rewrite wrap_step_no_break by exact Hno. reflexivity.
Qed.

Lemma wrap_lines_without_break_chars_witness :
  wrap_lines (u "한글로만이루어진아주긴나레이션문장이여기에쉼표도마침표도공백도없이계속해서이어집니다그리고더이어집니다")
  = [u "한글로만이루어진아주긴나레이션문장이여기에쉼표도마침표도공백도없이계속해서이어집니다그리고더이어집니다"].
Proof.
  refine (wrap_lines_without_break_chars _ _).
  vm_compute. repeat constructor.
Defined.

(** Every finished line took at least 40 code points of the text. *)
Lemma wrap_step_count (text : str) :
  forall lines current_line,
    (40 * length (fst (fold_left wrap_step text (lines, current_line)))
     + length (snd (fold_left wrap_step text (lines, current_line)))
     <= 40 * length lines + length current_line + length text)%nat.
Proof.
  induction text as [|c text IH]; intros lines current_line; [simpl; lia|].
  cbn [fold_left]. rewrite wrap_step_eq.
  destruct (Z.leb_spec max_chars_per_line (Z.of_nat (length (current_line ++ [c]))))
    as [Hge|Hlt];
    destruct (char_in c break_chars); cbn [andb];
    [ specialize (IH (lines ++ [strip (current_line ++ [c])]) [])
    | specialize (IH lines (current_line ++ [c]))
    | specialize (IH lines (current_line ++ [c]))
    | specialize (IH lines (current_line ++ [c])) ];
    rewrite !length_app in *; cbn [length] in *;
    unfold max_chars_per_line, str, char in *; lia.
Qed.

Lemma wrap_step_count_eq (text : str) (lines lines' : list str)
    (current_line current_line' : str) :
  fold_left wrap_step text (lines, current_line) = (lines', current_line') ->
  (40 * length lines' + length current_line'
   <= 40 * length lines + length current_line + length text)%nat.
Proof.
  intros H. pose proof (wrap_step_count text lines current_line) as H'.
  rewrite H in H'. exact H'.
Qed.

(** X4. A text of at most 80 code points wraps into at most two lines, so
    it is displayed whole, without the truncation marker. *)
Theorem subtitle_lines_up_to_80 (text : str) :
  (length text <= 80)%nat ->
  (length (wrap_lines text) <= 2)%nat /\ subtitle_lines text = wrap_lines text.
Proof.
  intros Hlen.
  assert (Hw : (length (wrap_lines text) <= 2)%nat).
  { unfold wrap_lines.
    destruct (fold_left wrap_step text ([], [])) as [lines current_line] eqn:Hloop.
    apply wrap_step_count_eq in Hloop.
    destruct current_line as [|c rest]; simpl in *.
    - lia.
    - rewrite length_app. simpl. lia. }
  split; [exact Hw|].
  unfold subtitle_lines, cap_lines.
  destruct (Z.ltb_spec 2 (Z.of_nat (length (wrap_lines text)))); [lia | reflexivity].
Qed.

Lemma subtitle_lines_up_to_80_witness :
  (length (wrap_lines (narration (placeholder_scene (u "the history of lighthouses") 0)))
   <= 2)%nat
  /\ subtitle_lines (narration (placeholder_scene (u "the history of lighthouses") 0))
     = wrap_lines (narration (placeholder_scene (u "the history of lighthouses") 0)).
Proof.
  refine (subtitle_lines_up_to_80 _ _).
  vm_compute. repeat constructor.
Defined.

(** ** Further properties of the composer *)

(** X5. [_create_fade_effect] touches nothing but the list of effects: it
    leaves the world, the identity, the frame, the duration and the audio
    of the clip alone.  With a transition duration that is not above zero
    it returns the clip as it is.  It fails in one case only: a fade-out
    is asked for, the transition duration is above zero and the clip has no
    duration. *)
Theorem _create_fade_effect_result (self : VideoComposer) (clip : ImageClip)
    (fade_in fade_out : bool) (w : World) :
  fst (_create_fade_effect self clip fade_in fade_out w) = w
  /\ (Qpositive (transition_duration self) = false ->
      _create_fade_effect self clip fade_in fade_out w = (w, inr clip))
  /\ ((exists e, snd (_create_fade_effect self clip fade_in fade_out w) = inl e)
      <-> fade_out = true /\ Qpositive (transition_duration self) = true
          /\ clip_duration clip = None)
  /\ (forall clip',
        snd (_create_fade_effect self clip fade_in fade_out w) = inr clip' ->
        clip_id clip' = clip_id clip /\ clip_img clip' = clip_img clip
        /\ clip_duration clip' = clip_duration clip
        /\ clip_audio clip' = clip_audio clip
        /\ exists added, clip_effects clip' = clip_effects clip ++ added
                         /\ (length added <= 2)%nat).
Proof.
  unfold _create_fade_effect, fadein, fadeout, bind, ret, raise.
  destruct clip as [id img d effs audio]. simpl.
  destruct fade_in, fade_out, (Qpositive (transition_duration self)), d as [d|]; simpl;
    (split; [reflexivity|]);
    (split; [intros H; first [discriminate H | reflexivity]|]);
    (split;
     [split;
      [intros [e He]; first [discriminate He | repeat split; reflexivity]
      |intros (H1 & H2 & H3);
       first [discriminate H1 | discriminate H2 | discriminate H3
             | eexists; reflexivity]]
     |intros clip' H; first [discriminate H | injection H as <-; simpl;
        repeat split;
        first [ exists []; rewrite app_nil_r; split; [reflexivity | simpl; lia]
              | eexists; split; [rewrite <- ?app_assoc; reflexivity | simpl; lia] ]]]).
Qed.

(** [compose_scene] and the loop never write a file. *)
Lemma compose_scene_written E self scene is_first is_last w :
  written (fst (compose_scene E self scene is_first is_last w)) = written w.
Proof.
  destruct (image_path scene) as [p|] eqn:Hp;
    [|rewrite compose_scene_missing by (left; exact Hp); reflexivity].
  destruct (audio_path scene) as [a|] eqn:Ha;
    [|rewrite compose_scene_missing by (right; exact Ha); reflexivity].
  pose proof (compose_scene_cases E self scene is_first is_last w p a Hp Ha) as H.
  destruct (load_image E p (width self) (height self)); [|rewrite H; reflexivity].
  destruct (enable_transitions self && is_last && Qpositive (transition_duration self)
            && negb (bool_decide (is_Some (duration scene))));
    [rewrite H; reflexivity|].
  destruct (audio_readable E a); rewrite H; reflexivity.
Qed.

Lemma compose_loop_written E self total scenes :
  forall i clips w,
    written (fst (compose_loop E self total i scenes clips w)) = written w.
Proof.
  induction scenes as [|scene rest IH]; intros i clips w; simpl; [reflexivity|].
  unfold bind.
  pose proof (compose_scene_written E self scene (i =? 0) (i =? total - 1) w) as Hs.
  destruct (compose_scene E self scene (i =? 0) (i =? total - 1) w) as [w1 [e|clip]];
    simpl in Hs; [exact Hs|].
  rewrite IH. exact Hs.
Qed.

(** [compose], stage by stage. *)
Lemma compose_stages E self script output_filename w :
  compose E self script output_filename w
  = match compose_loop E self (Z.of_nat (length (scenes script))) 0 (scenes script) [] w with
    | (w1, inl e) => (w1, inl e)
    | (w1, inr clips) =>
        match concatenate_videoclips clips w1 with
        | (w2, inl e) => (w2, inl e)
        | (w2, inr final) =>
            if encoder_ok E final (output_path_of E script output_filename) (fps self)
            then ({| next_id := next_id w2;
                     open_clips :=
                       foldl (fun O clip => O ∖ {[ clip_id clip ]})
                         (open_clips w2 ∖ {[ comp_id final ]}) clips;
                     written :=
                       (output_path_of E script output_filename, final) :: written w2 |},
                  inr (output_path_of E script output_filename))
            else (w2, inl EncoderError)
        end
    end.
Proof.
  unfold compose, bind.
  destruct (compose_loop E self _ 0 (scenes script) [] w) as [w1 [e|clips]];
    [reflexivity|].
  destruct (concatenate_videoclips clips w1) as [w2 [e|final]]; [reflexivity|].
  unfold write_videofile. fold (output_path_of E script output_filename).
  destruct (encoder_ok E final (output_path_of E script output_filename) (fps self));
    [|reflexivity].
  unfold close. rewrite close_all_run. reflexivity.
Qed.

Lemma concatenate_videoclips_written clips w :
  written (fst (concatenate_videoclips clips w)) = written w.
Proof.
  unfold concatenate_videoclips.
  destruct (mapM clip_duration clips); [|reflexivity].
  destruct clips; reflexivity.
Qed.

(** X6. [compose] starts the encoder last, when every scene has been
    composed and the clips are concatenated: when it ends with an error
    raised before the encoding (any error but the encoder's), the encoder
    was not started and no video has been encoded; when it returns, one
    video has been encoded, to the path it returns.  (What an encoder that
    fails leaves on the disk is the encoder's and is not described.) *)
Theorem compose_encodes_last E self script output_filename w :
  (forall e w',
      compose E self script output_filename w = (w', inl e) ->
      e <> EncoderError ->
      written w' = written w)
  /\ (forall path w',
        compose E self script output_filename w = (w', inr path) ->
        exists video, written w' = (path, video) :: written w).
Proof.
  split.
  - intros e w' H Hne. rewrite compose_stages in H.
    pose proof (compose_loop_written E self (Z.of_nat (length (scenes script))) (scenes script)
                  0 [] w) as Hloop.
    destruct (compose_loop E self _ 0 (scenes script) [] w) as [w1 [e1|clips]];
      simpl in Hloop.
    + injection H as <- _. exact Hloop.
    + pose proof (concatenate_videoclips_written clips w1) as Hcat.
      destruct (concatenate_videoclips clips w1) as [w2 [e2|final]]; simpl in Hcat.
      * injection H as <- _. rewrite Hcat. exact Hloop.
      * destruct (encoder_ok E final (output_path_of E script output_filename) (fps self));
          [discriminate H|].
        injection H as _ <-. contradiction Hne. reflexivity.
  - intros path w' H.
    apply compose_inr in H as (clips & final & ds & _ & _ & _ & _ & _ & _ & Hw & _).
    exists final. exact Hw.
Qed.

(** X7. [compose] of a script without scenes fails at the concatenation;
    no clip has been created and no file written. *)
Theorem compose_empty_script E self script output_filename w :
  scenes script = [] ->
  compose E self script output_filename w = (w, inl ConcatEmpty).
Proof. intros H. unfold compose. rewrite H. reflexivity. Qed.

Lemma compose_empty_script_witness :
  compose (studio true) default_composer {| title := u "Empty"; scenes := [] |} None
    empty_world
  = (empty_world, inl ConcatEmpty).
Proof.
  exact (compose_empty_script (studio true) default_composer
           {| title := u "Empty"; scenes := [] |} None empty_world eq_refl).
Defined.

(** The loop over composable scenes, followed by more scenes. *)
Lemma compose_loop_app E self total good :
  forallb (composable E self) good = true ->
  forall more i clips w,
    exists built,
      length built = length good
      /\ compose_loop E self total i (good ++ more) clips w
         = compose_loop E self total (i + Z.of_nat (length good)) more (clips ++ built)
             (Nat.iter (length good) allocated w).
Proof.
  induction good as [|scene rest IH]; intros Hall more i clips w.
  - exists []. split; [reflexivity|]. simpl. rewrite app_nil_r, Z.add_0_r. reflexivity.
  - simpl in Hall. apply andb_prop in Hall as [Hscene Hrest].
    destruct (compose_scene_composable E self scene (i =? 0) (i =? total - 1) w Hscene)
      as [clip Hclip].
    destruct (IH Hrest more (i + 1) (clips ++ [clip]) (allocated w)) as (built & Hlen & Hrun).
    exists (clip :: built). split; [simpl; rewrite Hlen; reflexivity|].
    cbn [app compose_loop]. unfold bind at 1. rewrite Hclip, Hrun.
    rewrite iter_allocated_shift, <- app_assoc. cbn [app length].
    f_equal. lia.
Qed.

(** X8. [compose] stops at the first scene that lacks its image or its
    audio: when the scenes before it are composable, the error is the
    validation error with the number of that scene, the clips built for the
    scenes before it stay open, and no file is written. *)
Theorem compose_stops_at_first_missing E self script output_filename w good bad rest :
  scenes script = good ++ bad :: rest ->
  forallb (composable E self) good = true ->
  image_path bad = None \/ audio_path bad = None ->
  compose E self script output_filename w
  = (Nat.iter (length good) allocated w, inl (MissingArtifact (scene_number bad)))
  /\ written (Nat.iter (length good) allocated w) = written w
  /\ (forall id, (next_id w <= id < next_id w + length good)%nat ->
                 id ∈ open_clips (Nat.iter (length good) allocated w)).
Proof.
  intros Hscenes Hgood Hbad. split; [|split].
  - unfold compose. rewrite Hscenes.
    destruct (compose_loop_app E self (Z.of_nat (length (good ++ bad :: rest))) good Hgood
                (bad :: rest) 0 [] w) as (built & _ & Hrun).
    unfold bind at 1. rewrite Hrun. cbn [compose_loop]. unfold bind at 1.
    rewrite (compose_scene_missing E self bad _ _ _ Hbad). reflexivity.
  - apply iter_allocated_written.
  - intros id Hid. apply iter_allocated_open. right. exact Hid.
Qed.

Lemma compose_stops_at_first_missing_witness :
  compose (studio true) (small_composer 0.5) gap_script None empty_world
  = (Nat.iter 1 allocated empty_world, inl (MissingArtifact 7))
  /\ written (Nat.iter 1 allocated empty_world) = []
  /\ (forall id, (0 <= id < 0 + 1)%nat -> id ∈ open_clips (Nat.iter 1 allocated empty_world)).
Proof.
  refine (compose_stops_at_first_missing (studio true) (small_composer 0.5) gap_script None
            empty_world [staged 1 (u "Once there was a lighthouse.") (Some 2.5%Q)]
            (scene_of_entry (7, u "No artifacts yet.", u "a ship"))
            [staged 3 [] (Some 1.25%Q)] eq_refl _ _).
  - vm_compute. reflexivity.
  - left. reflexivity.
Defined.

Lemma built_from_composable E self total scenes :
  forall i id clips ds,
    built_from E self total i id scenes clips ->
    map clip_duration clips = map Some ds ->
    forallb (composable E self) scenes = true.
Proof.
  induction scenes as [|scene rest IH]; intros i id [|clip clips] [|d ds] H Hds;
    simpl in *; try contradiction; try discriminate; [reflexivity|].
  destruct H as [(p & a & img & Hp & Ha & Himg & Haud & ->) H].
  injection Hds as Hd Hds. simpl in Hd.
  rewrite (IH _ _ _ _ H Hds), andb_true_r.
  unfold composable. rewrite Hp, Ha, Hd, Himg, Haud, andb_true_r.
  apply bool_decide_eq_true. eexists. reflexivity.
Qed.

(** X9. [compose] returns only for a script it can work with: when it
    returns a path the script has at least one scene, every scene has its
    image, its audio and its duration set with both files readable, and the
    encoder has accepted the video. *)
Theorem compose_returns_only_if_composable E self script output_filename w w' path :
  compose E self script output_filename w = (w', inr path) ->
  scenes script <> []
  /\ forallb (composable E self) (scenes script) = true
  /\ Forall (fun scene => is_Some (image_path scene) /\ is_Some (audio_path scene)
                          /\ is_Some (duration scene)) (scenes script)
  /\ exists video, encoder_ok E video path (fps self) = true.
Proof.
  intros H.
  apply compose_inr in H
    as (clips & final & ds & Hbuilt & Hne & Hds & _ & _ & Henc & _).
  apply mapM_Some_map in Hds.
  pose proof (built_from_composable _ _ _ _ _ _ _ _ Hbuilt Hds) as Hall.
  split; [exact Hne|]. split; [exact Hall|]. split; [|exists final; exact Henc].
  apply List.Forall_forall. intros scene Hin.
  rewrite forallb_forall in Hall. specialize (Hall scene Hin).
  unfold composable in Hall.
  destruct (image_path scene), (audio_path scene), (duration scene); try discriminate.
  repeat split; eexists; reflexivity.
Qed.

Lemma compose_returns_only_if_composable_witness :
  scenes demo_script <> []
  /\ forallb (composable (studio true) (small_composer 0.5)) (scenes demo_script) = true
  /\ Forall (fun scene => is_Some (image_path scene) /\ is_Some (audio_path scene)
                          /\ is_Some (duration scene)) (scenes demo_script)
  /\ exists video,
      encoder_ok (studio true) video (output_path_of (studio true) demo_script None)
        (fps (small_composer 0.5)) = true.
Proof.
  refine (compose_returns_only_if_composable (studio true) (small_composer 0.5) demo_script
            None empty_world
            (fst (compose (studio true) (small_composer 0.5) demo_script None empty_world))
            (output_path_of (studio true) demo_script None) _).
  rewrite compose_stages. vm_compute. reflexivity.
Defined.

(** *** Order and start times *)

Lemma lookup_cumsum_from (ds : list Q) :
  forall (k : nat) acc,
    (k <= length ds)%nat ->
    (acc :: cumsum_from acc ds) !! k = Some (fold_left Qplus (take k ds) acc).
Proof.
  induction ds as [|d r IH]; intros k acc Hk.
  - simpl in Hk. assert (k = 0%nat) as -> by lia. reflexivity.
  - destruct k as [|k]; [reflexivity|].
    simpl in Hk. cbn [cumsum_from lookup list_lookup take fold_left].
    apply (IH k (acc + d)%Q). lia.
Qed.

Lemma fold_left_Qplus_nonneg (ds : list Q) :
  forall acc, (0 <= acc)%Q -> Forall (Qle 0) ds -> (0 <= fold_left Qplus ds acc)%Q.
Proof.
  induction ds as [|d r IH]; intros acc Hacc Hds; simpl; [exact Hacc|].
  inversion Hds as [|? ? Hd Hr]; subst. apply IH; [|exact Hr].
  rewrite <- (Qplus_0_l 0). apply Qplus_le_compat; assumption.
Qed.

Lemma built_from_lookup E self total scenes :
  forall i id clips (k : nat) scene,
    built_from E self total i id scenes clips ->
    scenes !! k = Some scene ->
    exists clip,
      clips !! k = Some clip
      /\ clip_id clip = (id + k)%nat
      /\ clip_duration clip = duration scene
      /\ clip_audio clip = option_map Build_AudioFileClip (audio_path scene)
      /\ exists p img,
          image_path scene = Some p
          /\ load_image E p (width self) (height self) = Some img
          /\ clip_img clip = scene_frame E self scene img.
Proof.
  induction scenes as [|s rest IH]; intros i id [|clip clips] k scene H Hk;
    simpl in H; try contradiction; try discriminate.
  destruct H as [(p & a & img & Hp & Ha & Himg & _ & Hclip) H].
  destruct k as [|k]; simpl in Hk.
  - injection Hk as <-. exists clip. subst clip. simpl.
    rewrite Ha, Nat.add_0_r. repeat split. exists p, img. repeat split; assumption.
  - destruct (IH _ _ _ k scene H Hk) as (c & Hc & Hid & Hrest).
    exists c. split; [exact Hc|]. split; [rewrite Hid; lia | exact Hrest].
Qed.

(** X10. The written video shows the scenes in the order of the script:
    its clip number [k] carries the audio file and the duration of scene
    number [k] and the frame made of that scene's image, and, the durations
    being lengths of time, it starts when the scenes before it have
    played, at the sum of their durations. *)
Theorem compose_keeps_scene_order E self script output_filename w w' path :
  compose E self script output_filename w = (w', inr path) ->
  forallb (resolved E self) (scenes script) = true ->
  exists video,
    written w' = (path, video) :: written w
    /\ length (comp_clips video) = length (scenes script)
    /\ forall (k : nat) scene,
        scenes script !! k = Some scene ->
        exists clip start,
          comp_clips video !! k = Some (clip, start)
          /\ clip_audio clip = option_map Build_AudioFileClip (audio_path scene)
          /\ clip_duration clip = duration scene
          /\ (exists p img,
                 image_path scene = Some p
                 /\ load_image E p (width self) (height self) = Some img
                 /\ clip_img clip = scene_frame E self scene img)
          /\ (start == total_duration {| title := title script;
                                         scenes := take k (scenes script) |})%Q.
Proof.
  intros H Hres.
  apply compose_inr in H
    as (clips & final & ds & Hbuilt & _ & Hds & Hfinal & _ & _ & Hw & _).
  apply mapM_Some_map in Hds.
  pose proof (built_from_length _ _ _ _ _ _ _ Hbuilt) as Hlen.
  pose proof (built_from_durations _ _ _ _ _ _ _ Hbuilt) as Hdur.
  rewrite Hds in Hdur. symmetry in Hdur.
  assert (Hlends : length ds = length (scenes script)).
  { apply (f_equal (@length _)) in Hdur. rewrite !length_map in Hdur. lia. }
  exists final. split; [exact Hw|].
  subst final. cbn [comp_clips].
  split.
  - rewrite length_zip. cbn [cumsum].
    rewrite length_map. cbn [length]. rewrite length_cumsum_from. lia.
  - intros k scene Hk.
    destruct (built_from_lookup _ _ _ _ _ _ _ k scene Hbuilt Hk)
      as (clip & Hclip & _ & Hcd & Hca & Himg).
    assert (Hklt : (k < length (scenes script))%nat) by (eapply lookup_lt_Some; exact Hk).
    exists clip, (Qmax 0 (fold_left Qplus (take k ds) 0%Q)).
    split; [|split; [exact Hca|split; [exact Hcd|split; [exact Himg|]]]].
    + apply lookup_zip_with_Some. exists clip, (Qmax 0 (fold_left Qplus (take k ds) 0%Q)).
      split; [reflexivity|]. split; [exact Hclip|].
      rewrite list_lookup_fmap. cbn [cumsum].
      rewrite lookup_cumsum_from by lia. reflexivity.
    + pose proof (resolved_nonneg E self _ ds Hres Hdur) as Hnn.
      rewrite Qmax_0_nonneg.
      * unfold total_duration. cbn [scenes].
        symmetry. apply total_duration_sum.
        rewrite <- !List.firstn_map, Hdur. reflexivity.
      * apply fold_left_Qplus_nonneg; [apply Qle_refl|].
        apply Forall_take. exact Hnn.
Qed.

Lemma compose_keeps_scene_order_witness :
  exists video,
    written (fst (compose (studio true) (small_composer 0.5) demo_script None empty_world))
    = (output_path_of (studio true) demo_script None, video) :: written empty_world
    /\ length (comp_clips video) = length (scenes demo_script)
    /\ forall (k : nat) scene,
        scenes demo_script !! k = Some scene ->
        exists clip start,
          comp_clips video !! k = Some (clip, start)
          /\ clip_audio clip = option_map Build_AudioFileClip (audio_path scene)
          /\ clip_duration clip = duration scene
          /\ (exists p img,
                 image_path scene = Some p
                 /\ load_image (studio true) p (width (small_composer 0.5))
                      (height (small_composer 0.5)) = Some img
                 /\ clip_img clip = scene_frame (studio true) (small_composer 0.5) scene img)
          /\ (start == total_duration {| title := title demo_script;
                                         scenes := take k (scenes demo_script) |})%Q.
Proof.
  refine (compose_keeps_scene_order (studio true) (small_composer 0.5) demo_script None
            empty_world _ _ _ _).
  - vm_compute. reflexivity.
  - vm_compute. reflexivity.
Defined.

(** *** The output file name *)

Lemma lstrip_split (s : str) :
  exists ws, s = ws ++ lstrip s /\ forallb isspace ws = true.
Proof.
  induction s as [|c s (ws & Hs & Hws)]; simpl.
  - exists []. split; reflexivity.
  - destruct (isspace c) eqn:Hc.
    + exists (c :: ws). simpl. rewrite Hc, Hws. split; [f_equal; exact Hs | reflexivity].
    + exists []. split; reflexivity.
Qed.

Lemma lstrip_head (s : str) :
  match lstrip s with [] => True | c :: _ => isspace c = false end.
Proof.
  induction s as [|c s IH]; simpl; [exact I|].
  destruct (isspace c) eqn:Hc; [exact IH | exact Hc].
Qed.

(** [strip] takes whitespace off both ends and nothing else. *)
Lemma strip_split (s : str) :
  exists before after,
    s = before ++ strip s ++ after
    /\ forallb isspace before = true /\ forallb isspace after = true.
Proof.
  destruct (lstrip_split s) as (before & Hs & Hbefore).
  destruct (lstrip_split (rev (lstrip s))) as (ws & Hr & Hws).
  exists before, (rev ws). split; [|split; [exact Hbefore|]].
  - unfold strip, rstrip.
    rewrite <- rev_app_distr, <- Hr, rev_involutive. exact Hs.
  - rewrite forallb_forall in *. intros c Hc. apply Hws. apply in_rev. exact Hc.
Qed.

Lemma strip_ends (s : str) :
  match strip s with [] => True | c :: _ => isspace c = false end
  /\ match rev (strip s) with [] => True | c :: _ => isspace c = false end.
Proof.
  split.
  - unfold strip, rstrip.
    destruct (lstrip_split (rev (lstrip s))) as (ws & Hr & Hws).
    pose proof (lstrip_head s) as Hhead.
    pose proof (lstrip_head (rev (lstrip s))) as Hlast.
    apply (f_equal (@rev _)) in Hr. rewrite rev_involutive, rev_app_distr in Hr.
    destruct (rev (lstrip (rev (lstrip s)))) as [|c r] eqn:Hkept; [exact I|].
    rewrite Hr in Hhead. exact Hhead.
  - unfold strip, rstrip. rewrite rev_involutive. apply lstrip_head.
Qed.

(** X11. The file name derived from the title: every one of its code
    points is alphanumeric, a space, a hyphen or an underscore, it neither
    begins nor ends with whitespace, and it is what is left of the title
    when the other code points and the whitespace at the ends are taken
    out; a title with no such code point gives the empty name, so the file
    is called ".mp4".  A file name that is supplied is used as it is. *)
Theorem safe_title_is_safe E (script : Script) :
  Forall (fun c => isalnum E c = true \/ c = 32 \/ c = 45 \/ c = 95)
    (safe_title E (title script))
  /\ match safe_title E (title script) with [] => True | c :: _ => isspace c = false end
  /\ match rev (safe_title E (title script)) with
     | [] => True | c :: _ => isspace c = false end
  /\ (Forall (fun c => isalnum E c = false /\ c <> 32 /\ c <> 45 /\ c <> 95) (title script) ->
      output_path_of E script None = path_join E (OUTPUT_DIR E) (u ".mp4"))
  /\ (forall name, output_path_of E script (Some name) = path_join E (OUTPUT_DIR E) name).
Proof.
  unfold safe_title.
  assert (Hmem : forall c,
             c ∈ filter (fun c => isalnum E c || char_in c (u " -_")) (title script) ->
             (isalnum E c = true \/ c = 32 \/ c = 45 \/ c = 95) /\ c ∈ title script).
  { intros c Hc. apply list_elem_of_filter in Hc as [Hc Hin]. split; [|exact Hin].
    apply Is_true_true in Hc. apply orb_prop in Hc as [Hc|Hc]; [left; exact Hc|].
    right. unfold char_in in Hc. simpl in Hc.
    rewrite !orb_true_iff, !Z.eqb_eq in Hc. intuition discriminate. }
  set (kept := filter _ (title script)) in *.
  assert (Hkept : Forall (fun c => isalnum E c = true \/ c = 32 \/ c = 45 \/ c = 95) kept).
  { apply List.Forall_forall. intros c Hc. apply list_elem_of_In in Hc.
    exact (proj1 (Hmem c Hc)). }
  split; [|split; [apply strip_ends | split; [apply strip_ends | split]]].
  - destruct (strip_split kept) as (before & after & Heq & _ & _).
    rewrite Heq in Hkept.
    apply Forall_app in Hkept as [_ Hkept]. apply Forall_app in Hkept as [Hkept _].
    exact Hkept.
  - intros Hnone. unfold output_path_of, safe_title. fold kept.
    assert (Hnil : kept = []).
    { destruct kept as [|c r]; [reflexivity|exfalso].
      destruct (Hmem c (list_elem_of_here c r)) as [Hok Hin].
      rewrite List.Forall_forall in Hnone. apply list_elem_of_In in Hin.
      destruct (Hnone c Hin) as (Ha & H1 & H2 & H3).
      destruct Hok as [Hok|[Hok|[Hok|Hok]]]; congruence. }
    rewrite Hnil. reflexivity.
  - intros name. reflexivity.
Qed.

(** *** [Script.total_duration] *)

Lemma total_duration_compat (scenes : list Scene) :
  forall a b,
    (a == b)%Q ->
    (fold_left (fun acc s => acc + or_0 (duration s)) scenes a
     == fold_left (fun acc s => acc + or_0 (duration s)) scenes b)%Q.
Proof.
  induction scenes as [|s rest IH]; intros a b Hab; cbn [fold_left]; [exact Hab|].
  apply IH. rewrite Hab. reflexivity.
Qed.

(** X12. A scene that has no duration yet counts for nothing in the total
    duration of a script: putting such a scene anywhere in a script leaves
    the total as it was, and a script whose scenes are all without a
    duration has the total zero.  (Only [x + 0 = x] is used of the sum,
    scene by scene in the order of the script.) *)
Theorem total_duration_skips_untimed (t : str) (before after : list Scene) :
  (forall scene,
      duration scene = None ->
      (total_duration {| title := t; scenes := before ++ scene :: after |}
       == total_duration {| title := t; scenes := before ++ after |})%Q)
  /\ (Forall (fun scene => duration scene = None) before ->
      (total_duration {| title := t; scenes := before |} == 0)%Q).
Proof.
  unfold total_duration. cbn [scenes]. split.
  - intros scene Hd. rewrite !fold_left_app. cbn [fold_left].
    apply total_duration_compat. rewrite Hd. cbn [or_0]. apply Qplus_0_r.
  - intros Hall. generalize (Qeq_refl 0). generalize 0%Q at 1 3 as acc.
    induction Hall as [|scene rest Hd _ IH]; intros acc Hacc; cbn [fold_left];
      [exact Hacc|].
    apply IH. rewrite Hd. cbn [or_0]. rewrite Qplus_0_r. exact Hacc.
Qed.

Lemma total_duration_skips_untimed_witness :
  (total_duration {| title := u "demo";
                     scenes := [staged 1 (u "a") (Some 2.5%Q); staged 2 (u "b") None;
                                staged 3 (u "c") (Some 4%Q)] |}
   == total_duration {| title := u "demo";
                        scenes := [staged 1 (u "a") (Some 2.5%Q);
                                   staged 3 (u "c") (Some 4%Q)] |})%Q.
Proof.
  exact (proj1 (total_duration_skips_untimed (u "demo") [staged 1 (u "a") (Some 2.5%Q)]
                  [staged 3 (u "c") (Some 4%Q)])
           (staged 2 (u "b") None) eq_refl).
Defined.

(** ** Further properties of the pipeline and the script collaborator *)

Lemma RESOLUTION_PRESETS_range (resolution : str) :
  In (default (1920, 1080) (RESOLUTION_PRESETS !! resolution))
    [(1280, 720); (1920, 1080); (2560, 1440); (3840, 2160)].
Proof.
  destruct (decide (resolution = u "720p")) as [->|H1];
    [vm_compute; tauto|].
  destruct (decide (resolution = u "1080p")) as [->|H2];
    [vm_compute; tauto|].
  destruct (decide (resolution = u "1440p")) as [->|H3];
    [vm_compute; tauto|].
  destruct (decide (resolution = u "4k")) as [->|H4];
    [vm_compute; tauto|].
  rewrite RESOLUTION_PRESETS_other; [simpl; tauto|].
  rewrite !not_elem_of_cons. repeat split; try assumption. apply not_elem_of_nil.
Qed.

(** X13. The pipeline is built exactly when its collaborators are: in
    test mode always, otherwise when the Anthropic client and the selected
    image generator can be built; the resolution, the target duration and
    the switches have no part in it.  When it is built, the frame of its
    composer is one of the four presets whatever resolution key was asked
    for, the composer runs at 30 frames per second with a transition
    duration of half a second, which is above zero, and has the subtitle
    and transition switches that were asked for. *)
Theorem pipeline_composer_presets L keys image_provider target_duration test_mode
    (subtitles transitions : bool) (resolution : str) :
  (is_Some (DDalkkakPipeline_init L keys image_provider target_duration test_mode
              subtitles transitions resolution)
   <-> test_mode = true
       \/ (Anthropic L (ANTHROPIC_API_KEY keys) = true
           /\ is_Some (ImageGenerator_init L keys image_provider)))
  /\ (forall pipeline,
        DDalkkakPipeline_init L keys image_provider target_duration test_mode
          subtitles transitions resolution = Some pipeline ->
        In (width (video_composer pipeline), height (video_composer pipeline))
          [(1280, 720); (1920, 1080); (2560, 1440); (3840, 2160)]
        /\ fps (video_composer pipeline) = 30
        /\ Qpositive (transition_duration (video_composer pipeline)) = true
        /\ enable_subtitles (video_composer pipeline) = subtitles
        /\ enable_transitions (video_composer pipeline) = transitions).
Proof.
  rewrite DDalkkakPipeline_init_eq. split.
  - destruct test_mode.
    + destruct (collaborators_in_test_mode L keys) as [-> ->].
      split; [intros _; left; reflexivity | intros _; eexists; reflexivity].
    + unfold ScriptGenerator_init, or_key. cbn [key_set].
      destruct (Anthropic L (ANTHROPIC_API_KEY keys)).
      * destruct (ImageGenerator_init L keys image_provider) as [g|].
        -- split; [intros _; right; split; [reflexivity | eexists; reflexivity]
                  | intros _; eexists; reflexivity].
        -- split; [intros [x Hx]; discriminate Hx|].
           intros [H | [_ [x Hx]]]; discriminate.
      * split; [intros [x Hx]; discriminate Hx|].
        intros [H | [H _]]; discriminate.
  - intros pipeline H.
    destruct (ScriptGenerator_init L keys None test_mode); [|discriminate H].
    destruct (ImageGenerator_init L keys _); [|discriminate H].
    injection H as <-. cbn [video_composer width height fps transition_duration
                              enable_subtitles enable_transitions].
    pose proof (RESOLUTION_PRESETS_range resolution) as Hrange.
    destruct (default (1920, 1080) (RESOLUTION_PRESETS !! resolution)) as [wd ht].
    repeat split. exact Hrange.
Qed.

Lemma pipeline_composer_presets_witness :
  exists pipeline,
    DDalkkakPipeline_init sdk openai_key_only (u "auto") 180 false true false (u "1440p")
    = Some pipeline
    /\ In (width (video_composer pipeline), height (video_composer pipeline))
         [(1280, 720); (1920, 1080); (2560, 1440); (3840, 2160)]
    /\ fps (video_composer pipeline) = 30
    /\ Qpositive (transition_duration (video_composer pipeline)) = true
    /\ enable_subtitles (video_composer pipeline) = true
    /\ enable_transitions (video_composer pipeline) = false.
Proof.
  destruct (DDalkkakPipeline_init sdk openai_key_only (u "auto") 180 false true false
              (u "1440p")) as [pipeline|] eqn:Hinit;
    [|vm_compute in Hinit; discriminate Hinit].
  exists pipeline. split; [reflexivity|].
  exact (proj2 (pipeline_composer_presets sdk openai_key_only (u "auto") 180 false true false
                  (u "1440p")) pipeline Hinit).
Defined.

(** X14. The selection of the image provider.  A generator that is built
    is always one of "gemini", "openai" and "placeholder".  A provider
    name that is none of "auto", "gemini" and "openai" selects the
    placeholder, and so does "auto" when neither key is set (an empty key
    counts as not set); both build no client and cannot fail.  "auto" with
    a Gemini key goes for Gemini whatever the OpenAI key, and a provider
    asked for by name has its client built whatever the keys: when the
    client refuses, nothing is selected and the constructor raises, and so
    does the constructor of the pipeline outside test mode.  In test mode
    the pipeline uses the placeholder script and the placeholder images,
    whatever the keys, the provider asked for and the clients. *)
Theorem image_provider_selection (L : Clients) (keys : Credentials) (asked : str) :
  (forall generator,
      ImageGenerator_init L keys asked = Some generator ->
      In (provider generator) [u "gemini"; u "openai"; u "placeholder"])
  /\ (asked <> u "auto" -> asked <> u "gemini" -> asked <> u "openai" ->
      ImageGenerator_init L keys asked = Some {| provider := u "placeholder" |})
  /\ (key_set (GEMINI_API_KEY keys) = false -> key_set (OPENAI_API_KEY keys) = false ->
      ImageGenerator_init L keys (u "auto") = Some {| provider := u "placeholder" |})
  /\ (key_set (GEMINI_API_KEY keys) = true ->
      ImageGenerator_init L keys (u "auto")
      = if genai_Client L (GEMINI_API_KEY keys) then Some {| provider := u "gemini" |}
        else None)
  /\ ImageGenerator_init L keys (u "gemini")
     = (if genai_Client L (GEMINI_API_KEY keys) then Some {| provider := u "gemini" |}
        else None)
  /\ ImageGenerator_init L keys (u "openai")
     = (if OpenAI L (OPENAI_API_KEY keys) then Some {| provider := u "openai" |}
        else None)
  /\ (ImageGenerator_init L keys asked = None ->
      forall target_duration subtitles transitions resolution,
        DDalkkakPipeline_init L keys asked target_duration false subtitles transitions
          resolution = None)
  /\ key_set (Some []) = false
  /\ (forall target_duration subtitles transitions resolution,
        exists pipeline,
          DDalkkakPipeline_init L keys asked target_duration true subtitles
            transitions resolution = Some pipeline
          /\ use_placeholder (script_gen pipeline) = true
          /\ provider (image_gen pipeline) = u "placeholder").
Proof.
  split; [|split; [|split; [|split; [|split; [|split; [|split; [|split]]]]]]].
  - intros generator. unfold ImageGenerator_init, wrapped.
    repeat case_decide;
      repeat match goal with
             | |- context [if ?b then _ else _] => destruct b
             end;
      intros Hsel; try discriminate Hsel; injection Hsel as <-; simpl; tauto.
  - intros H1 H2 H3. unfold ImageGenerator_init.
    repeat case_decide; try contradiction. reflexivity.
  - intros Hg Ho. unfold ImageGenerator_init.
    rewrite decide_True by reflexivity. rewrite Hg, Ho. reflexivity.
  - intros Hg. unfold ImageGenerator_init.
    rewrite decide_True by reflexivity. rewrite Hg. reflexivity.
  - reflexivity.
  - reflexivity.
  - intros Hnone target_duration subtitles transitions resolution.
    rewrite DDalkkakPipeline_init_eq, Hnone.
    destruct (ScriptGenerator_init L keys None false); reflexivity.
  - reflexivity.
  - intros target_duration subtitles transitions resolution.
    rewrite DDalkkakPipeline_init_eq.
    destruct (collaborators_in_test_mode L keys) as [-> ->].
    eexists. split; [reflexivity|]. split; reflexivity.
Qed.

(** With no key in the environment, the OpenAI generator asked for by name
    cannot be built (its client refuses the missing key) and the pipeline
    is not built, while an unknown name and "auto" fall back on the
    placeholder. *)
Lemma image_provider_selection_witness :
  ImageGenerator_init sdk no_keys (u "openai") = None
  /\ DDalkkakPipeline_init sdk no_keys (u "openai") 180 false true true (u "4k") = None
  /\ ImageGenerator_init sdk no_keys (u "dall-e") = Some {| provider := u "placeholder" |}
  /\ ImageGenerator_init sdk no_keys (u "auto") = Some {| provider := u "placeholder" |}.
Proof.
  pose proof (image_provider_selection sdk no_keys (u "openai"))
    as (_ & _ & Hauto & _ & _ & Hopenai & Hpipeline & _).
  pose proof (image_provider_selection sdk no_keys (u "dall-e"))
    as (_ & Hunknown & _).
  split; [exact Hopenai|]. split; [exact (Hpipeline Hopenai 180 true true (u "4k"))|].
  split; [|exact (Hauto eq_refl eq_refl)].
  apply Hunknown; intros H; vm_compute in H; discriminate H.
Defined.

Lemma compose_first_scene_missing E self script output_filename w scene rest :
  scenes script = scene :: rest ->
  image_path scene = None \/ audio_path scene = None ->
  compose E self script output_filename w = (w, inl (MissingArtifact (scene_number scene))).
Proof.
  intros Hs Hmiss. unfold compose. rewrite Hs. cbn [compose_loop].
  unfold bind. rewrite (compose_scene_missing E self scene _ _ _ Hmiss). reflexivity.
Qed.

(** X15. A script as the script collaborator returns it cannot be
    composed: its scenes have no image, no audio and no duration, and
    [compose] refuses it with the validation error for its first scene
    (scene 1 in placeholder mode), or at the concatenation when it has no
    scene, having created no clip and written no file. *)
Theorem fresh_script_is_not_composable ask_model (self_gen : ScriptGenerator)
    (prompt : str) (target_duration : Z) (script : Script) :
  generate ask_model self_gen prompt target_duration = Some script ->
  Forall (fun scene => image_path scene = None /\ audio_path scene = None
                       /\ duration scene = None) (scenes script)
  /\ (forall E self output_filename w,
        compose E self script output_filename w
        = (w, inl match scenes script with
                  | [] => ConcatEmpty
                  | scene :: _ => MissingArtifact (scene_number scene)
                  end))
  /\ (use_placeholder self_gen = true ->
      forall E self output_filename w,
        compose E self script output_filename w = (w, inl (MissingArtifact 1))).
Proof.
  intros Hgen.
  assert (Hfresh : Forall (fun scene => image_path scene = None /\ audio_path scene = None
                                        /\ duration scene = None) (scenes script)).
  { unfold generate in Hgen. destruct (use_placeholder self_gen).
    - injection Hgen as <-. simpl. apply List.Forall_forall. intros scene Hin.
      apply in_map_iff in Hin as (i & <- & _). repeat split.
    - destruct (ask_model _) as [[data_title data_scenes]|]; [|discriminate].
      injection Hgen as <-. simpl. apply List.Forall_forall. intros scene Hin.
      apply in_map_iff in Hin as ([[n narr] img] & <- & _). repeat split. }
  assert (Hcompose : forall E self output_filename w,
             compose E self script output_filename w
             = (w, inl match scenes script with
                       | [] => ConcatEmpty
                       | scene :: _ => MissingArtifact (scene_number scene)
                       end)).
  { intros E self output_filename w.
    destruct (scenes script) as [|scene rest] eqn:Hs.
    - unfold compose. rewrite Hs. reflexivity.
    - inversion Hfresh as [|? ? (Himg & _) _]; subst.
      apply (compose_first_scene_missing E self script output_filename w scene rest Hs).
      left. exact Himg. }
  split; [exact Hfresh|]. split; [exact Hcompose|].
  intros Hp E self output_filename w. rewrite Hcompose.
  unfold generate in Hgen. rewrite Hp in Hgen. injection Hgen as <-.
  unfold _generate_placeholder. cbn [scenes].
  replace (Z.min (num_scenes_for target_duration) 5) with 5
    by (pose proof (num_scenes_for_min target_duration); lia).
  reflexivity.
Qed.

Lemma fresh_script_is_not_composable_witness :
  Forall (fun scene => image_path scene = None /\ audio_path scene = None
                       /\ duration scene = None)
    (scenes (_generate_placeholder (u "test") (num_scenes_for 90)))
  /\ (forall E self output_filename w,
        compose E self (_generate_placeholder (u "test") (num_scenes_for 90))
          output_filename w
        = (w, inl match scenes (_generate_placeholder (u "test") (num_scenes_for 90)) with
                  | [] => ConcatEmpty
                  | scene :: _ => MissingArtifact (scene_number scene)
                  end))
  /\ (use_placeholder {| use_placeholder := true |} = true ->
      forall E self output_filename w,
        compose E self (_generate_placeholder (u "test") (num_scenes_for 90))
          output_filename w = (w, inl (MissingArtifact 1))).
Proof.
  exact (fresh_script_is_not_composable (fun _ => None) {| use_placeholder := true |}
           (u "test") 90 _ eq_refl).
Defined.

(** X16. The number of scenes asked for grows with the target duration and
    never falls under five: it is five for every target under 108 seconds
    (also for zero and for negative targets), and for a target of 108
    seconds or more it is the target divided by 18, rounded down. *)
Theorem num_scenes_for_thresholds (target_duration : Z) :
  (target_duration < 108 -> num_scenes_for target_duration = 5)
  /\ (108 <= target_duration -> num_scenes_for target_duration = target_duration / 18)
  /\ (num_scenes_for target_duration = 5 <-> target_duration < 108)
  /\ (forall longer, target_duration <= longer ->
                     num_scenes_for target_duration <= num_scenes_for longer).
Proof.
  unfold num_scenes_for.
  assert (Hlow : target_duration < 108 -> target_duration / 18 <= 5).
  { intros H. apply Z.lt_succ_r. apply Z.div_lt_upper_bound; lia. }
  assert (Hhigh : 108 <= target_duration -> 6 <= target_duration / 18).
  { intros H. apply Z.div_le_lower_bound; lia. }
  repeat split.
  - intros H. specialize (Hlow H). lia.
  - intros H. specialize (Hhigh H). lia.
  - intros H. destruct (Z.lt_ge_cases target_duration 108) as [Hlt|Hge]; [exact Hlt|].
    specialize (Hhigh Hge). lia.
  - intros H. specialize (Hlow H). lia.
  - intros longer Hle.
    pose proof (Z.div_le_mono target_duration longer 18 ltac:(lia) Hle). lia.
Qed.


(** ** The artifact files *)

Example format_03d_examples :
  map format_03d [0; 5; 12; 123; 1234; -5; -12; -123]
  = [u "000"; u "005"; u "012"; u "123"; u "1234"; u "-05"; u "-12"; u "-123"].
Proof. vm_compute. reflexivity. Qed.

Lemma u_String (a : ascii) (s : string) :
  byte_val a < 128 -> u (String a s) = byte_val a :: u s.
Proof.
  intros Ha. unfold u. cbn [bytes utf8_decode].
  destruct (Z.ltb_spec (byte_val a) 128); [reflexivity | lia].
Qed.

Lemma uint_of_str_digits (d : Decimal.uint) :
  uint_of_str (u (NilEmpty.string_of_uint d)) = Some d.
Proof.
  induction d as [|d IH|d IH|d IH|d IH|d IH|d IH|d IH|d IH|d IH|d IH];
    cbn [NilEmpty.string_of_uint]; [reflexivity|..];
    (rewrite u_String by (vm_compute; reflexivity));
    cbn [uint_of_str]; rewrite IH; reflexivity.
Qed.

(** The digits of a number that is not negative read back as the number. *)
Lemma int_of_str_digits (z : Z) :
  0 <= z -> option_map Z.of_uint (uint_of_str (of_int z)) = Some z.
Proof.
  intros Hz. unfold of_int.
  pose proof (DecimalZ.of_to z) as Hround.
  destruct (Z.to_int z) as [d|d] eqn:Hd.
  - cbn [NilZero.string_of_int]. cbn [Z.of_int] in Hround.
    destruct d; cbn [NilZero.string_of_uint];
      try (rewrite uint_of_str_digits; cbn [option_map]; f_equal; exact Hround).
    vm_compute. f_equal. exact Hround.
  - exfalso. destruct z as [|p|p]; try discriminate Hd. lia.
Qed.

Lemma uint_of_str_zeros (k : nat) (s : str) :
  option_map Z.of_uint (uint_of_str (replicate k 48 ++ s))
  = option_map Z.of_uint (uint_of_str s).
Proof.
  induction k as [|k IH]; [reflexivity|].
  cbn [replicate app uint_of_str].
  destruct (uint_of_str (replicate k 48 ++ s)) as [d|];
    destruct (uint_of_str s) as [d'|]; cbn [option_map] in *;
    try discriminate IH; [|reflexivity].
  cbn [Z.eqb Pos.eqb option_map]. rewrite <- IH. reflexivity.
Qed.

(** The number can be read back from its formatted text. *)
Lemma int_of_str_format_03d (n : Z) : int_of_str (format_03d n) = Some n.
Proof.
  unfold format_03d.
  destruct (Z.ltb_spec n 0) as [Hneg|Hpos].
  - change (u "-") with [45]. cbn [app int_of_str].
    pose proof (uint_of_str_zeros (3 - length [45] - length (of_int (Z.abs n)))
                  (of_int (Z.abs n))) as Hz.
    rewrite int_of_str_digits in Hz by lia.
    destruct (uint_of_str _) as [d|]; [|discriminate Hz].
    cbn [option_map] in *. injection Hz as Hz. f_equal. lia.
  - cbn [app].
    pose proof (uint_of_str_zeros (3 - length (@nil char) - length (of_int (Z.abs n)))
                  (of_int (Z.abs n))) as Hz.
    rewrite int_of_str_digits in Hz by lia.
    unfold int_of_str.
    destruct (replicate _ 48 ++ of_int (Z.abs n)) as [|c r] eqn:Hs.
    + rewrite Hz. f_equal. lia.
    + destruct (Z.eqb_spec c 45) as [->|Hc].
      * exfalso. cbn [uint_of_str] in Hz.
        destruct (uint_of_str r); discriminate Hz.
      * assert (Hgo : forall (A : Type) (x y : A),
                   match c with 45 => x | _ => y end = y).
        { intros A x y. destruct c as [|q|q]; try reflexivity.
          do 6 (destruct q as [q|q|]; try reflexivity). exfalso. apply Hc. reflexivity. }
        rewrite Hgo, Hz. f_equal. lia.
Qed.

(** X17. The file names of the artifacts tell the scenes apart: the
    formatted number is at least three code points long and can be read
    back, so two scenes share the name of their image file, or of their
    audio file, only when they have the same scene number. *)
Theorem artifact_file_names_distinct (n m : Z) :
  (3 <= length (format_03d n))%nat
  /\ int_of_str (format_03d n) = Some n
  /\ (format_03d n = format_03d m <-> n = m)
  /\ (image_file_name n = image_file_name m <-> n = m)
  /\ (audio_file_name n = audio_file_name m <-> n = m).
Proof.
  assert (Hinj : forall a b, format_03d a = format_03d b -> a = b).
  { intros a b H. pose proof (int_of_str_format_03d a) as Ha.
    rewrite H, int_of_str_format_03d in Ha. congruence. }
  split; [|split; [apply int_of_str_format_03d|split; [|split]]].
  - unfold format_03d. rewrite !length_app, length_replicate.
    change (u "-") with [45].
    destruct (n <? 0); cbn [length]; unfold str, char in *; lia.
  - split; [apply Hinj | intros ->; reflexivity].
  - split; [|intros ->; reflexivity].
    unfold image_file_name. intros H.
    apply app_inv_head in H. apply app_inv_tail in H. exact (Hinj _ _ H).
  - split; [|intros ->; reflexivity].
    unfold audio_file_name. intros H.
    apply app_inv_head in H. apply app_inv_tail in H. exact (Hinj _ _ H).
Qed.


(** ** [DDalkkakPipeline.create] *)

Lemma image_stage_inr E C image_gen scenes :
  forall out,
    image_stage E C image_gen scenes = inr out ->
    out = map (fun scene => set_image_path scene (image_path_of E C scene)) scenes.
Proof.
  induction scenes as [|scene rest IH]; intros out H; simpl in H.
  - injection H as <-. reflexivity.
  - unfold ImageGenerator_generate in H.
    destruct (image_written C _ _ _); [|discriminate H].
    destruct (image_stage E C image_gen rest) as [e|rest']; [discriminate H|].
    injection H as <-. simpl. rewrite (IH rest' eq_refl). reflexivity.
Qed.

Lemma speech_stage_inr E C tts_gen scenes :
  forall out,
    speech_stage E C tts_gen scenes = inr out ->
    Forall2 (fun scene scene' =>
               exists d, measured E C tts_gen scene = Some d
                         /\ scene' = set_audio_path_and_duration scene
                                       (audio_path_of E C scene) d)
      scenes out.
Proof.
  induction scenes as [|scene rest IH]; intros out H; simpl in H.
  - injection H as <-. constructor.
  - unfold TTSGenerator_generate in H. fold (audio_path_of E C scene) in H.
    fold (measured E C tts_gen scene) in H.
    destruct (measured E C tts_gen scene) as [d|] eqn:Hd; [|discriminate H].
    destruct (speech_stage E C tts_gen rest) as [e|rest']; [discriminate H|].
    injection H as <-. constructor; [|apply IH; reflexivity].
    exists d. split; [exact Hd | reflexivity].
Qed.

(** After the two stages every scene has its three artifacts. *)
Lemma stages_staged_fully E C image_gen tts_gen scenes illustrated narrated :
  image_stage E C image_gen scenes = inr illustrated ->
  speech_stage E C tts_gen illustrated = inr narrated ->
  Forall staged_fully narrated
  /\ Forall2 (fun scene scene' =>
                exists d, measured E C tts_gen scene = Some d
                          /\ scene' = finished E C scene d) scenes narrated.
Proof.
  intros Hi Hs. apply image_stage_inr in Hi. subst illustrated.
  apply speech_stage_inr in Hs.
  assert (H2 : Forall2 (fun scene scene' =>
                          exists d, measured E C tts_gen scene = Some d
                                    /\ scene' = finished E C scene d) scenes narrated).
  { revert narrated Hs. induction scenes as [|scene rest IH]; intros narrated Hs;
      inversion Hs as [|? ? ? ? (d & Hd & Heq) Hrest]; subst; constructor.
    - exists d. split; [exact Hd | reflexivity].
    - apply IH. exact Hrest. }
  split; [|exact H2].
  clear Hs. induction H2 as [|scene scene' rest rest' (d & _ & ->) _ IH]; constructor;
    [|exact IH].
  repeat split; eexists; reflexivity.
Qed.

Lemma image_stage_error_kind E C image_gen scenes e :
  image_stage E C image_gen scenes = inl e -> exists n, e = ImageFailed n.
Proof.
  induction scenes as [|scene rest IH]; simpl; [discriminate|].
  destruct (ImageGenerator_generate E C image_gen _ _);
    [|intros H; injection H as <-; eexists; reflexivity].
  destruct (image_stage E C image_gen rest); [|discriminate].
  intros H. injection H as <-. apply IH. reflexivity.
Qed.

Lemma speech_stage_error_kind E C tts_gen scenes e :
  speech_stage E C tts_gen scenes = inl e -> exists n, e = SpeechFailed n.
Proof.
  induction scenes as [|scene rest IH]; simpl; [discriminate|].
  destruct (TTSGenerator_generate E C tts_gen _ _) as [[p d]|];
    [|intros H; injection H as <-; eexists; reflexivity].
  destruct (speech_stage E C tts_gen rest); [|discriminate].
  intros H. injection H as <-. apply IH. reflexivity.
Qed.

Lemma compose_scene_staged_error E self scene is_first is_last w w' e :
  staged_fully scene ->
  compose_scene E self scene is_first is_last w = (w', inl e) ->
  (exists p, e = ImageLoadError p) \/ (exists a, e = AudioLoadError a).
Proof.
  intros ([p Hp] & [a Ha] & [d Hd]) H.
  pose proof (compose_scene_cases E self scene is_first is_last w p a Hp Ha) as Hc.
  destruct (load_image E p (width self) (height self)).
  - rewrite Hd in Hc. simpl in Hc. rewrite andb_false_r in Hc.
    destruct (audio_readable E a); rewrite Hc in H; [discriminate H|].
    injection H as _ <-. right. eexists. reflexivity.
  - rewrite Hc in H. injection H as _ <-. left. eexists. reflexivity.
Qed.

Lemma compose_loop_staged_error E self total scenes :
  Forall staged_fully scenes ->
  forall i clips w w' e,
    compose_loop E self total i scenes clips w = (w', inl e) ->
    (exists p, e = ImageLoadError p) \/ (exists a, e = AudioLoadError a).
Proof.
  induction 1 as [|scene rest Hscene _ IH]; intros i clips w w' e H; simpl in H.
  - discriminate H.
  - unfold bind in H.
    destruct (compose_scene E self scene (i =? 0) (i =? total - 1) w)
      as [w1 [e1|clip]] eqn:Hs.
    + injection H as _ <-. exact (compose_scene_staged_error _ _ _ _ _ _ _ _ Hscene Hs).
    + exact (IH _ _ _ _ _ H).
Qed.

(** [compose] of a script whose scenes all have their artifacts fails only
    for a file that cannot be read, a script without scenes or an encoder
    that refuses. *)
Lemma compose_staged_error E self script output_filename w w' e :
  Forall staged_fully (scenes script) ->
  compose E self script output_filename w = (w', inl e) ->
  (exists p, e = ImageLoadError p) \/ (exists a, e = AudioLoadError a)
  \/ e = ConcatEmpty \/ e = EncoderError.
Proof.
  intros Hall H. rewrite compose_stages in H.
  destruct (compose_loop E self _ 0 (scenes script) [] w) as [w1 [e1|clips]] eqn:Hloop.
  - injection H as _ <-.
    destruct (compose_loop_staged_error _ _ _ _ Hall _ _ _ _ _ Hloop) as [He|He];
      [left; exact He | right; left; exact He].
  - apply compose_loop_inr in Hloop as [_ (new & Hclips & Hbuilt)].
    simpl in Hclips. subst new.
    pose proof (built_from_durations _ _ _ _ _ _ _ Hbuilt) as Hdur.
    assert (Hsome : exists ds, map duration (scenes script) = map Some ds).
    { clear -Hall. induction Hall as [|scene rest (_ & _ & [d Hd]) _ (ds & IH)].
      - exists []. reflexivity.
      - exists (d :: ds). simpl. rewrite Hd, IH. reflexivity. }
    destruct Hsome as [ds Hds]. rewrite Hds in Hdur. apply mapM_Some_map in Hdur.
    unfold concatenate_videoclips in H. rewrite Hdur in H.
    destruct clips as [|c clips].
    + injection H as _ <-. right. right. left. reflexivity.
    + unfold bind, fresh_clip, ret in H.
      match type of H with
      | context [if ?b then _ else _] => destruct b
      end; [discriminate H|].
      injection H as _ <-. right. right. right. reflexivity.
Qed.

(** X18. The pipeline never trips the validation of the composer:
    whatever the collaborators and the libraries do, [create] does not end
    with the error of [compose_scene] for a scene that lacks its image or
    its audio, nor with the error of a fade-out or of a concatenation on a
    clip without a duration, since the image and the narration stages have
    set the image, the audio and the duration of every scene before the
    composer is called. *)
Theorem create_never_fails_validation E C ask_model (self : DDalkkakPipeline)
    (prompt : str) (output_filename : option str) (w : World) :
  (forall n,
      snd (create E C ask_model self prompt output_filename w)
      <> inl (ComposeFailed (MissingArtifact n)))
  /\ snd (create E C ask_model self prompt output_filename w)
     <> inl (ComposeFailed DurationNotSet)
  /\ snd (create E C ask_model self prompt output_filename w)
     <> inl (ComposeFailed ConcatTypeError).
Proof.
  assert (Hkind : forall e,
             snd (create E C ask_model self prompt output_filename w)
             = inl (ComposeFailed e) ->
             (exists p, e = ImageLoadError p) \/ (exists a, e = AudioLoadError a)
             \/ e = ConcatEmpty \/ e = EncoderError).
  { unfold create.
    destruct (generate ask_model (script_gen self) prompt (target_duration self))
      as [script|]; [|discriminate].
    destruct (image_stage E C (image_gen self) (scenes script)) as [e1|illustrated] eqn:Hi.
    { intros e H. simpl in H. injection H as ->.
      apply image_stage_error_kind in Hi. destruct Hi as [n Hn]. discriminate Hn. }
    destruct (speech_stage E C (tts_gen self) illustrated) as [e2|narrated] eqn:Hs.
    { intros e H. simpl in H. injection H as ->.
      apply speech_stage_error_kind in Hs. destruct Hs as [n Hn]. discriminate Hn. }
    destruct (stages_staged_fully _ _ _ _ _ _ _ Hi Hs) as [Hall _].
    destruct (compose E (video_composer self) {| title := title script; scenes := narrated |}
                output_filename w) as [w' [e|path]] eqn:Hc.
    - intros e' H. simpl in H. injection H as <-.
      exact (compose_staged_error E (video_composer self)
               {| title := title script; scenes := narrated |} _ _ _ _ Hall Hc).
    - discriminate. }
  split; [|split].
  - intros n H. destruct (Hkind _ H) as [[p Hp] | [[a Ha] | [He | He]]]; discriminate.
  - intros H. destruct (Hkind _ H) as [[p Hp] | [[a Ha] | [He | He]]]; discriminate.
  - intros H. destruct (Hkind _ H) as [[p Hp] | [[a Ha] | [He | He]]]; discriminate.
Qed.












(** ** The credential file *)

Example mask_key_examples :
  map mask_key [u ""; u "abcdefghi"; u "abcdefghij"; u "abcdefghijk"; u "abcdefghijklmnop"]
  = [u ""; u ""; u "abcdefgh...ghij"; u "abcdefgh...hijk"; u "abcdefgh...mnop"].
Proof. vm_compute. reflexivity. Qed.

Example load_env_keys_example :
  load_env_keys (Some (u "# keys" ++ [13; 10] ++ u "  A=1=2  " ++ [10] ++ u "novalue"
                       ++ [10] ++ u "B=" ++ [13] ++ u "A=3"))
  = <[u "A" := u "3"]> (<[u "B" := u ""]> (<[u "A" := u "1=2"]> ∅)).
Proof. vm_compute. reflexivity. Qed.

(** X21. The masked form of a key: a key of fewer than ten code points
    (also the empty key) is not shown at all; a longer key is shown as its
    first eight code points, three dots and its last four, fifteen code
    points whatever the length of the key.  For a key of ten to twelve code
    points the two shown parts overlap or meet, so the mask gives the whole
    key away: the key can be put together again from it. *)
Theorem mask_key_shape (key : str) :
  ((length key < 10)%nat -> mask_key key = [])
  /\ ((10 <= length key)%nat ->
      mask_key key = take 8 key ++ u "..." ++ drop (length key - 4) key
      /\ length (mask_key key) = 15%nat
      /\ take 8 (mask_key key) = take 8 key
      /\ drop 11 (mask_key key) = drop (length key - 4) key)
  /\ ((10 <= length key <= 12)%nat ->
      key = take 8 (mask_key key) ++ drop (23 - length key) (mask_key key)).
Proof.
  assert (Hlong : (10 <= length key)%nat ->
                  mask_key key = take 8 key ++ u "..." ++ drop (length key - 4) key).
  { intros H. unfold mask_key.
    destruct key as [|c r]; [simpl in H; lia|]. cbn [truthy negb orb].
    destruct (Z.ltb_spec (Z.of_nat (length (c :: r))) 10); [lia | reflexivity]. }
  assert (Hparts : (10 <= length key)%nat ->
                   take 8 (mask_key key) = take 8 key
                   /\ drop 11 (mask_key key) = drop (length key - 4) key).
  { intros H. rewrite (Hlong H). split.
    - apply take_app_length'. rewrite length_take. lia.
    - rewrite app_assoc. apply drop_app_length'.
      rewrite length_app, length_take. change (length (u "...")) with 3%nat. lia. }
  split; [|split].
  - intros H. unfold mask_key.
    destruct (Z.ltb_spec (Z.of_nat (length key)) 10); [|lia].
    rewrite orb_true_r. reflexivity.
  - intros H. split; [exact (Hlong H)|]. split; [|exact (Hparts H)].
    rewrite (Hlong H), !length_app, length_take, length_drop.
    change (length (u "...")) with 3%nat. lia.
  - intros [Hlo Hhi]. destruct (Hparts Hlo) as [Htake Hdrop].
    rewrite Htake.
    replace (23 - length key)%nat with (11 + (12 - length key))%nat by lia.
    rewrite <- drop_drop, Hdrop, drop_drop.
    replace (length key - 4 + (12 - length key))%nat with 8%nat by lia.
    symmetry. apply take_drop.
Qed.

Lemma universal_newlines_id (s : str) :
  Forall (fun c => c <> 13) s -> universal_newlines s = s.
Proof.
  induction 1 as [|c r Hc _ IH]; [reflexivity|].
  cbn [universal_newlines]. destruct (Z.eqb_spec c 13); [contradiction|].
  rewrite IH. reflexivity.
Qed.

Lemma iter_lines_from_line (line : str) :
  forall cur rest,
    Forall (fun c => c <> 10) line ->
    iter_lines_from cur (line ++ 10 :: rest)
    = (cur ++ line ++ [10]) :: iter_lines_from [] rest.
Proof.
  induction line as [|c r IH]; intros cur rest Hline.
  - reflexivity.
  - inversion Hline as [|? ? Hc Hr]; subst. cbn [app iter_lines_from].
    destruct (Z.eqb_spec c 10); [contradiction|].
    rewrite IH by exact Hr. rewrite <- app_assoc. reflexivity.
Qed.

(** The lines of a text made of lines that each end with a line end. *)
Lemma iter_lines_flat (lines : list str) :
  Forall (Forall (fun c => c <> 10)) lines ->
  iter_lines (flat_map (fun line => line ++ [10]) lines)
  = map (fun line => line ++ [10]) lines.
Proof.
  unfold iter_lines. induction 1 as [|line rest Hline _ IH]; [reflexivity|].
  cbn [flat_map map]. rewrite <- app_assoc. cbn [app].
  rewrite iter_lines_from_line by exact Hline. rewrite IH. reflexivity.
Qed.

Lemma lstrip_nonspace (c : char) (r : str) :
  isspace c = false -> lstrip (c :: r) = c :: r.
Proof. intros H. cbn [lstrip]. rewrite H. reflexivity. Qed.

(** A line that begins and ends with something else than whitespace comes
    out of [strip] without its line end. *)
Lemma strip_line (c : char) (r : str) :
  isspace c = false ->
  match rev (c :: r) with [] => True | d :: _ => isspace d = false end ->
  strip ((c :: r) ++ [10]) = c :: r.
Proof.
  intros Hc Hlast. unfold strip, rstrip. unfold str, char in *.
  cbn [app]. rewrite lstrip_nonspace by exact Hc.
  change (c :: r ++ [10]) with ((c :: r) ++ [10]).
  rewrite rev_app_distr. cbn [rev app lstrip].
  change (isspace 10) with true. cbv iota.
  change (rev r ++ [c]) with (rev (c :: r)) in *.
  destruct (rev (c :: r)) as [|d t] eqn:Hrev.
  - apply (f_equal (@rev _)) in Hrev. rewrite rev_involutive in Hrev. discriminate Hrev.
  - rewrite lstrip_nonspace by exact Hlast. change (rev (d :: t) = c :: r).
    rewrite <- Hrev. apply rev_involutive.
Qed.

Lemma split_once_name (name value : str) :
  Forall (fun c => c <> 61) name ->
  split_once 61 (name ++ 61 :: value) = (name, value).
Proof.
  induction 1 as [|c r Hc _ IH]; [reflexivity|].
  cbn [app split_once]. destruct (Z.eqb_spec c 61); [contradiction|].
  rewrite IH. reflexivity.
Qed.

Lemma char_in_app (c : char) (s t : str) :
  char_in c (s ++ t) = char_in c s || char_in c t.
Proof. unfold char_in. apply existsb_app. Qed.

(** The line [NAME=value] of the file stands for the entry of that name
    and value, when the value survives the file. *)
Lemma env_entry_assignment (c : char) (name value : str) :
  isspace c = false -> c <> 35 ->
  Forall (fun d => d <> 61) (c :: name) ->
  survives value ->
  env_entry ((c :: name) ++ 61 :: value ++ [10]) = Some (c :: name, value).
Proof.
  intros Hc Hhash Hname [_ Hlast]. unfold env_entry. unfold str, char in *.
  assert (Hline : strip (((c :: name) ++ 61 :: value) ++ [10]) = (c :: name) ++ 61 :: value).
  { apply (strip_line c (name ++ 61 :: value)); [exact Hc|].
    change (c :: name ++ 61 :: value) with ((c :: name) ++ [61] ++ value).
    rewrite !rev_app_distr. cbn [rev app].
    destruct (rev value) as [|d t]; [reflexivity | exact Hlast]. }
  rewrite <- app_assoc in Hline. cbn [app] in Hline. cbn [app]. rewrite Hline.
  cbn [truthy starts_with_hash andb].
  destruct (Z.eqb_spec c 35); [contradiction|]. cbn [negb andb].
  change (c :: name ++ 61 :: value) with ((c :: name) ++ 61 :: value).
  rewrite char_in_app. cbn [char_in existsb Z.eqb Pos.eqb]. rewrite orb_true_r.
  rewrite split_once_name by exact Hname. reflexivity.
Qed.

Lemma Forall_ne_of_bool (x : Z) (l : list Z) :
  forallb (fun c => negb (c =? x)) l = true -> Forall (fun c => c <> x) l.
Proof.
  intros H. apply List.Forall_forall. intros c Hc.
  rewrite forallb_forall in H. specialize (H c Hc).
  intros ->. rewrite Z.eqb_refl in H. discriminate H.
Qed.

Lemma survives_no_line_end (value : str) :
  survives value ->
  Forall (fun c => c <> 10) value /\ Forall (fun c => c <> 13) value.
Proof.
  intros [H _]. split; eapply Forall_impl; try exact H; intros c [H1 H2]; assumption.
Qed.

(** The file that [save_env_keys] writes, line by line. *)
Lemma save_env_keys_lines keys environ :
  fst (save_env_keys keys environ)
  = flat_map (fun line => line ++ [10])
      [u "# DDalkkak Movie - API Keys"; [];
       u "# Anthropic (Claude) API - 대본 생성";
       u "ANTHROPIC_API_KEY=" ++ get_or_empty keys (u "ANTHROPIC_API_KEY"); [];
       u "# Google Gemini API - 이미지 생성";
       u "GEMINI_API_KEY=" ++ get_or_empty keys (u "GEMINI_API_KEY"); [];
       u "# OpenAI API (선택) - DALL-E 이미지 생성";
       if truthy (get_or_empty keys (u "OPENAI_API_KEY"))
       then u "OPENAI_API_KEY=" ++ get_or_empty keys (u "OPENAI_API_KEY")
       else u "# OPENAI_API_KEY=your_openai_api_key_here"].
Proof.
  unfold save_env_keys. cbn [fst flat_map].
  destruct (truthy (get_or_empty keys (u "OPENAI_API_KEY")));
    rewrite <- ?app_assoc; cbn [app]; rewrite ?app_nil_r; reflexivity.
Qed.


Ltac no_char :=
  lazymatch goal with
  | |- Forall _ (_ ++ _) => apply Forall_app; split; no_char
  | |- Forall _ [] => apply List.Forall_nil
  | |- Forall _ (u _) => apply Forall_ne_of_bool; vm_compute; reflexivity
  | |- Forall _ (_ :: _) => apply Forall_ne_of_bool; vm_compute; reflexivity
  | |- Forall _ _ => assumption
  end.

Ltac no_char_lines :=
  repeat (apply List.Forall_cons; [no_char|]); apply List.Forall_nil.

(** X22. The credential file round trip: reading back the file that
    [save_env_keys] writes gives the Anthropic and the Gemini key as they
    were saved (a key that was missing comes back as the empty string),
    the OpenAI key when it is not empty and no entry for it otherwise, and
    nothing else; this for keys that have no line end in them and do not
    end with whitespace. *)
Theorem env_file_round_trip (keys environ : gmap (list Z) (list Z)) :
  survives (get_or_empty keys (u "ANTHROPIC_API_KEY")) ->
  survives (get_or_empty keys (u "GEMINI_API_KEY")) ->
  survives (get_or_empty keys (u "OPENAI_API_KEY")) ->
  load_env_keys (Some (fst (save_env_keys keys environ)))
  = if truthy (get_or_empty keys (u "OPENAI_API_KEY"))
    then <[u "OPENAI_API_KEY" := get_or_empty keys (u "OPENAI_API_KEY")]>
           (<[u "GEMINI_API_KEY" := get_or_empty keys (u "GEMINI_API_KEY")]>
              (<[u "ANTHROPIC_API_KEY" := get_or_empty keys (u "ANTHROPIC_API_KEY")]> ∅))
    else <[u "GEMINI_API_KEY" := get_or_empty keys (u "GEMINI_API_KEY")]>
           (<[u "ANTHROPIC_API_KEY" := get_or_empty keys (u "ANTHROPIC_API_KEY")]> ∅).
Proof.
  intros Ha Hg Ho.
  destruct (survives_no_line_end _ Ha) as [Ha10 Ha13].
  destruct (survives_no_line_end _ Hg) as [Hg10 Hg13].
  destruct (survives_no_line_end _ Ho) as [Ho10 Ho13].
  unfold load_env_keys. rewrite save_env_keys_lines.
  set (a := get_or_empty keys (u "ANTHROPIC_API_KEY")) in *.
  set (g := get_or_empty keys (u "GEMINI_API_KEY")) in *.
  set (o := get_or_empty keys (u "OPENAI_API_KEY")) in *.
  rewrite universal_newlines_id.
  2:{ cbn [flat_map]. destruct (truthy o); no_char. }
  rewrite iter_lines_flat.
  2:{ destruct (truthy o); no_char_lines. }
  cbn [map fold_left].
  change (env_entry (u "# DDalkkak Movie - API Keys" ++ [10])) with (@None (str * str)).
  change (env_entry ([] ++ [10])) with (@None (str * str)).
  change (env_entry (u "# Anthropic (Claude) API - 대본 생성" ++ [10]))
    with (@None (str * str)).
  change (env_entry (u "# Google Gemini API - 이미지 생성" ++ [10]))
    with (@None (str * str)).
  change (env_entry (u "# OpenAI API (선택) - DALL-E 이미지 생성" ++ [10]))
    with (@None (str * str)).
  cbv iota.
  assert (HA : env_entry ((u "ANTHROPIC_API_KEY=" ++ a) ++ [10])
               = Some (u "ANTHROPIC_API_KEY", a)).
  { exact (env_entry_assignment 65 (tl (u "ANTHROPIC_API_KEY")) a eq_refl
             ltac:(discriminate)
             (Forall_ne_of_bool 61 (65 :: tl (u "ANTHROPIC_API_KEY")) eq_refl) Ha). }
  assert (HG : env_entry ((u "GEMINI_API_KEY=" ++ g) ++ [10])
               = Some (u "GEMINI_API_KEY", g)).
  { exact (env_entry_assignment 71 (tl (u "GEMINI_API_KEY")) g eq_refl
             ltac:(discriminate)
             (Forall_ne_of_bool 61 (71 :: tl (u "GEMINI_API_KEY")) eq_refl) Hg). }
  assert (HO : env_entry ((u "OPENAI_API_KEY=" ++ o) ++ [10])
               = Some (u "OPENAI_API_KEY", o)).
  { exact (env_entry_assignment 79 (tl (u "OPENAI_API_KEY")) o eq_refl
             ltac:(discriminate)
             (Forall_ne_of_bool 61 (79 :: tl (u "OPENAI_API_KEY")) eq_refl) Ho). }
  unfold str, char in *.
  rewrite HA, HG.
  destruct (truthy o).
  - rewrite HO. reflexivity.
  - change (env_entry (u "# OPENAI_API_KEY=your_openai_api_key_here" ++ [10]))
      with (@None (list Z * list Z)).
    reflexivity.
Qed.

Lemma survives_demo_keys (name : str) :
  In name [u "ANTHROPIC_API_KEY"; u "GEMINI_API_KEY"; u "OPENAI_API_KEY"] ->
  survives (get_or_empty demo_keys name).
Proof.
  intros [<-|[<-|[<-|[]]]]; (split; [|vm_compute; try reflexivity; exact I]);
    apply List.Forall_forall; intros c Hc; vm_compute in Hc;
    repeat (destruct Hc as [<-|Hc]; [split; discriminate|]); destruct Hc.
Qed.

Lemma env_file_round_trip_witness :
  load_env_keys (Some (fst (save_env_keys demo_keys ∅)))
  = if truthy (get_or_empty demo_keys (u "OPENAI_API_KEY"))
    then <[u "OPENAI_API_KEY" := get_or_empty demo_keys (u "OPENAI_API_KEY")]>
           (<[u "GEMINI_API_KEY" := get_or_empty demo_keys (u "GEMINI_API_KEY")]>
              (<[u "ANTHROPIC_API_KEY" := get_or_empty demo_keys (u "ANTHROPIC_API_KEY")]> ∅))
    else <[u "GEMINI_API_KEY" := get_or_empty demo_keys (u "GEMINI_API_KEY")]>
           (<[u "ANTHROPIC_API_KEY" := get_or_empty demo_keys (u "ANTHROPIC_API_KEY")]> ∅).
Proof.
  refine (env_file_round_trip demo_keys ∅ _ _ _); apply survives_demo_keys; simpl; tauto.
Defined.

Example env_file_round_trip_demo :
  load_env_keys (Some (fst (save_env_keys demo_keys ∅)))
  = <[u "GEMINI_API_KEY" := u ""]>
      (<[u "ANTHROPIC_API_KEY" := u "sk-ant-api03-Zm9v=YmFy"]> ∅).
Proof. vm_compute. reflexivity. Qed.

(** ** The switches of the composer *)

(** X23. The two switches of the composer.  With the subtitles switched
    off the frame of the clip is the resized image as loaded, whatever the
    narration; with the transitions switched off the clip has no fade,
    whether the scene is the first, the last or both, and the fade-out
    error for a clip without a duration cannot occur. *)
Theorem compose_scene_switches_off E self scene is_first is_last w :
  (enable_subtitles self = false ->
   forall w' clip,
     compose_scene E self scene is_first is_last w = (w', inr clip) ->
     exists p, image_path scene = Some p
               /\ load_image E p (width self) (height self) = Some (clip_img clip))
  /\ (enable_transitions self = false ->
      snd (compose_scene E self scene is_first is_last w) <> inl DurationNotSet
      /\ forall w' clip,
          compose_scene E self scene is_first is_last w = (w', inr clip) ->
          clip_effects clip = [])
  /\ (enable_subtitles self = false -> enable_transitions self = false ->
      forall p a img,
        image_path scene = Some p -> audio_path scene = Some a ->
        load_image E p (width self) (height self) = Some img ->
        audio_readable E a = true ->
        compose_scene E self scene is_first is_last w
        = (allocated w,
           inr {| clip_id := next_id w; clip_img := img;
                  clip_duration := duration scene; clip_effects := [];
                  clip_audio := Some {| audio_filename := a |} |})).
Proof.
  split; [|split].
  - intros Hsub w' clip Hrun.
    apply compose_scene_inr in Hrun as [_ (p & a & img & Hp & _ & Himg & _ & ->)].
    exists p. split; [exact Hp|]. simpl. unfold scene_frame. rewrite Hsub. exact Himg.
  - intros Htr. split.
    + destruct (image_path scene) as [p|] eqn:Hp;
        [|rewrite compose_scene_missing by (left; exact Hp); discriminate].
      destruct (audio_path scene) as [a|] eqn:Ha;
        [|rewrite compose_scene_missing by (right; exact Ha); discriminate].
      pose proof (compose_scene_cases E self scene is_first is_last w p a Hp Ha) as H.
      rewrite Htr in H. simpl in H.
      destruct (load_image E p (width self) (height self)); [|rewrite H; discriminate].
      destruct (audio_readable E a); rewrite H; discriminate.
    + intros w' clip Hrun.
      apply compose_scene_inr in Hrun as [_ (p & a & img & _ & _ & _ & _ & ->)].
      simpl. unfold scene_effects. rewrite Htr. reflexivity.
  - intros Hsub Htr p a img Hp Ha Himg Haud.
    pose proof (compose_scene_cases E self scene is_first is_last w p a Hp Ha) as H.
    rewrite Himg, Htr, Haud in H. simpl in H. rewrite H.
    unfold built_clip, scene_frame, scene_effects. rewrite Hsub, Htr. reflexivity.
Qed.

(** ** The text handed to [json.loads] *)

Example json_text_examples :
  map json_text [u "{a:1}"; u "Here: ```json {a:1} ``` bye"; u "``` {a:1} ```";
                 u "```json{a}````json"; u "x```y"; u "```json {b}";
                 u "a```b```json c```d"; u "``json"; u "```json```json"; u "a```"; u "```"]
  = map Some
      [u "{a:1}"; u "{a:1}"; u "{a:1}"; u "{a}`"; u "y"; u "{b}"; u "c"; u "``json"; u "";
       u ""; u ""].
Proof. vm_compute. reflexivity. Qed.

Lemma starts_with_app (sep rest : list Z) : starts_with sep (sep ++ rest) = true.
Proof.
  induction sep as [|c sep IH]; [reflexivity|]. simpl. rewrite Z.eqb_refl. exact IH.
Qed.

(** Splitting at a separator that begins with a backtick. *)

Lemma starts_with_no_tick (sep' : list Z) (c : Z) (r : list Z) :
  c <> 96 -> starts_with (96 :: sep') (c :: r) = false.
Proof.
  intros Hc. cbn [starts_with]. destruct (Z.eqb_spec 96 c); [congruence | reflexivity].
Qed.

Lemma contains_no_tick (sep' s : list Z) :
  Forall (fun c => c <> 96) s -> contains (96 :: sep') s = false.
Proof.
  induction 1 as [|c r Hc _ IH]; [reflexivity|].
  cbn [contains]. rewrite starts_with_no_tick by exact Hc. exact IH.
Qed.

Lemma contains_after (sep pre rest : list Z) :
  contains sep (pre ++ sep ++ rest) = true.
Proof.
  induction pre as [|c pre IH].
  - cbn [app]. destruct (sep ++ rest) as [|c r] eqn:Hs.
    + destruct sep; [reflexivity | discriminate Hs].
    + cbn [contains]. rewrite <- Hs, starts_with_app. reflexivity.
  - cbn [app contains]. rewrite IH. apply orb_true_r.
Qed.

Lemma split_go_skip (sep cur s rest : list Z) :
  split_go sep cur (length s) (s ++ rest) = split_go sep cur 0 rest.
Proof.
  induction s as [|c s IH]; [destruct rest; reflexivity|].
  cbn [length app split_go]. exact IH.
Qed.

Lemma split_go_no_tick (sep' body : list Z) :
  forall cur rest,
    Forall (fun c => c <> 96) body ->
    split_go (96 :: sep') cur 0 (body ++ rest) = split_go (96 :: sep') (cur ++ body) 0 rest.
Proof.
  induction body as [|c body IH]; intros cur rest Hbody.
  - rewrite app_nil_r. reflexivity.
  - inversion Hbody as [|? ? Hc Hrest]; subst.
    cbn [app split_go]. rewrite starts_with_no_tick by exact Hc.
    rewrite IH by exact Hrest. rewrite <- app_assoc. reflexivity.
Qed.

Lemma split_go_at_sep (sep' cur rest : list Z) :
  split_go (96 :: sep') cur 0 ((96 :: sep') ++ rest)
  = cur :: split_go (96 :: sep') [] 0 rest.
Proof.
  cbn [app split_go].
  change (96 :: sep' ++ rest) with ((96 :: sep') ++ rest). rewrite starts_with_app.
  replace (length (96%Z :: sep') - 1)%nat with (length sep')
    by (cbn [length]; lia).
  f_equal. apply split_go_skip.
Qed.

(** The first piece begins with what was read so far. *)
Lemma split_go_head (sep : list Z) (s : list Z) :
  forall cur skip,
    nth 0 (split_go sep cur skip s) [] = cur ++ nth 0 (split_go sep [] skip s) [].
Proof.
  induction s as [|c r IH]; intros cur skip.
  - cbn [split_go nth]. rewrite app_nil_r. reflexivity.
  - cbn [split_go]. destruct skip as [|k]; [|apply IH].
    destruct (starts_with sep (c :: r)).
    + cbn [nth]. rewrite app_nil_r. reflexivity.
    + rewrite (IH (cur ++ [c])), (IH ([] ++ [c])). rewrite <- app_assoc. reflexivity.
Qed.

(** In a text without a backtick nothing is split. *)
Lemma split_no_tick (sep' s : list Z) :
  Forall (fun c => c <> 96) s -> split (96 :: sep') s = [s].
Proof.
  intros H. unfold split.
  rewrite <- (app_nil_r s) at 1. rewrite split_go_no_tick by exact H. reflexivity.
Qed.

Lemma split_go_cons_O (sep cur : list Z) (c : Z) (r : list Z) :
  split_go sep cur 0 (c :: r)
  = if starts_with sep (c :: r) then cur :: split_go sep [] (length sep - 1) r
    else split_go sep (cur ++ [c]) 0 r.
Proof. reflexivity. Qed.

(** A text that does not contain the separator is one piece. *)
Lemma split_go_not_contains (sep s : list Z) :
  forall cur, contains sep s = false -> split_go sep cur 0 s = [cur ++ s].
Proof.
  induction s as [|c r IH]; intros cur H.
  - rewrite app_nil_r. reflexivity.
  - rewrite split_go_cons_O. cbn [contains] in H.
    apply orb_false_iff in H as [H1 H2]. rewrite H1, (IH _ H2), <- app_assoc.
    reflexivity.
Qed.

(** The piece before the first json fence in three backticks followed by a
    text without backticks: nothing, or all of it. *)
Lemma split_json_after_fence (post : list Z) :
  Forall (fun c => c <> 96) post ->
  nth 0 (split (u "```json") (u "```" ++ post)) [] = []
  \/ nth 0 (split (u "```json") (u "```" ++ post)) [] = u "```" ++ post.
Proof.
  intros Hpost.
  change (u "```" ++ post) with (96 :: 96 :: 96 :: post).
  change (u "```json") with (96 :: 96 :: 96 :: u "json").
  destruct (starts_with (96 :: 96 :: 96 :: u "json") (96 :: 96 :: 96 :: post)) eqn:H0.
  - left. unfold split. rewrite split_go_cons_O, H0. reflexivity.
  - right. unfold split. rewrite split_go_not_contains; [reflexivity|].
    assert (H1 : forall t, starts_with (96 :: 96 :: 96 :: u "json") (96 :: 96 :: post) = false
                           /\ starts_with (96 :: 96 :: 96 :: t) (96 :: post) = false).
    { intros t. destruct Hpost as [|c r Hc _]; [split; reflexivity|].
      cbn [starts_with]. rewrite !Z.eqb_refl. cbn [andb].
      destruct (Z.eqb_spec 96 c); [congruence|]. split; reflexivity. }
    cbn [contains]. rewrite H0, (proj1 (H1 [])), (proj2 (H1 (u "json"))).
    cbn [orb]. apply contains_no_tick. exact Hpost.
Qed.

Lemma split_go_length (sep s : list Z) :
  forall cur skip, (1 <= length (split_go sep cur skip s))%nat.
Proof.
  induction s as [|c r IH]; intros cur skip; [cbn; lia|].
  cbn [split_go]. destruct skip; [|apply IH].
  destruct (starts_with sep (c :: r)); [cbn [length]; lia | apply IH].
Qed.

(** A text that contains the separator has at least two pieces. *)
Lemma split_go_contains (p : Z) (sep' s : list Z) :
  forall cur,
    contains (p :: sep') s = true ->
    (2 <= length (split_go (p :: sep') cur 0 s))%nat.
Proof.
  induction s as [|c r IH]; intros cur H; [discriminate H|].
  rewrite split_go_cons_O. cbn [contains] in H.
  destruct (starts_with (p :: sep') (c :: r)).
  - pose proof (split_go_length (p :: sep') r [] (length (p :: sep') - 1)) as Hl.
    change (length (cur :: split_go (p :: sep') [] (length (p :: sep') - 1) r))
      with (S (length (split_go (p :: sep') [] (length (p :: sep') - 1) r))).
    lia.
  - apply IH. exact H.
Qed.

Lemma lookup_nth (l : list (list Z)) (i : nat) :
  (i < length l)%nat -> l !! i = Some (nth i l []).
Proof.
  intros H. destruct (lookup_lt_is_Some_2 l i H) as [x Hx].
  rewrite Hx. f_equal. symmetry. apply nth_lookup_Some with (d := []). exact Hx.
Qed.

(** Where the fence occurs in the text, both indexings are in range. *)
Lemma fenced_text_nth (p : Z) (sep' s : list Z) :
  contains (p :: sep') s = true ->
  fenced_text (p :: sep') s
  = Some (nth 0 (split (u "```") (nth 1 (split (p :: sep') s) [])) []).
Proof.
  intros H. unfold fenced_text.
  rewrite (lookup_nth (split (p :: sep') s) 1) by (apply split_go_contains; exact H).
  rewrite lookup_nth by apply split_go_length. reflexivity.
Qed.

(** X24. The extraction of the JSON text never fails: whatever the answer
    of the model, the two indexings [[1]] and [[0]] of lines 79 and 81 are
    in range, since a text that contains the fence splits into at least two
    pieces and a split has always a first piece. *)
Theorem json_text_never_fails (response_text : list Z) :
  exists text, json_text response_text = Some text.
Proof.
  unfold json_text.
  destruct (contains (u "```json") response_text) eqn:H1.
  - change (u "```json") with (96 :: u "``json") in *.
    rewrite fenced_text_nth by exact H1. eexists. reflexivity.
  - destruct (contains (u "```") response_text) eqn:H2.
    + change (u "```") with (96 :: u "``") in H2 |- * at 1.
      rewrite fenced_text_nth by exact H2. eexists. reflexivity.
    + eexists. reflexivity.
Qed.

(** X25. What is handed to [json.loads].  For texts [pre], [body] and
    [post] without a backtick: an answer without a fence is parsed as it is,
    stripped; of an answer with a json fence the stripped body is parsed,
    whether the fence is closed or not, and whatever precedes the fence and
    follows its end is dropped. *)
Theorem json_text_fenced (pre body post : list Z) :
  Forall (fun c => c <> 96) pre ->
  Forall (fun c => c <> 96) body ->
  Forall (fun c => c <> 96) post ->
  json_text pre = Some (strip pre)
  /\ json_text (pre ++ u "```json" ++ body ++ u "```" ++ post) = Some (strip body)
  /\ json_text (pre ++ u "```json" ++ body) = Some (strip body).
Proof.
  intros Hpre Hbody Hpost. split; [|split].
  - unfold json_text.
    change (u "```json") with (96 :: u "``json"). change (u "```") with (96 :: u "``").
    rewrite !contains_no_tick by exact Hpre. reflexivity.
  - unfold json_text. rewrite contains_after.
    change (u "```json") with (96 :: u "``json") at 1.
    rewrite fenced_text_nth by apply contains_after. do 2 f_equal.
    unfold split at 2. rewrite split_go_no_tick by exact Hpre.
    rewrite split_go_at_sep. cbn [nth].
    rewrite split_go_no_tick by exact Hbody. cbn [app].
    rewrite split_go_head.
    change (96 :: u "``json") with (u "```json").
    fold (split (u "```json") (u "```" ++ post)).
    destruct (split_json_after_fence post Hpost) as [-> | ->].
    + rewrite app_nil_r. change (u "```") with (96 :: u "``").
      rewrite split_no_tick by exact Hbody. reflexivity.
    + change (u "```") with (96 :: u "``").
      unfold split. rewrite split_go_no_tick by exact Hbody.
      rewrite split_go_at_sep. reflexivity.
  - unfold json_text.
    replace (pre ++ u "```json" ++ body) with (pre ++ u "```json" ++ body ++ [])
      by (rewrite app_nil_r; reflexivity).
    rewrite contains_after.
    change (u "```json") with (96 :: u "``json") at 1.
    rewrite fenced_text_nth by apply contains_after. rewrite app_nil_r. do 2 f_equal.
    unfold split at 2. rewrite split_go_no_tick by exact Hpre.
    rewrite split_go_at_sep. cbn [nth].
    rewrite <- (app_nil_r body) at 1. rewrite split_go_no_tick by exact Hbody.
    cbn [app split_go nth].
    change (u "```") with (96 :: u "``").
    rewrite split_no_tick by exact Hbody. reflexivity.
Qed.

(** X26. An answer whose fence is three backticks alone (the json fence
    occurs nowhere in it): the stripped text between the first two fences
    is parsed. *)
Theorem json_text_plain_fence (pre body post : list Z) :
  Forall (fun c => c <> 96) pre ->
  Forall (fun c => c <> 96) body ->
  contains (u "```json") (pre ++ u "```" ++ body ++ u "```" ++ post) = false ->
  json_text (pre ++ u "```" ++ body ++ u "```" ++ post) = Some (strip body).
Proof.
  intros Hpre Hbody Hno. unfold json_text. rewrite Hno, contains_after.
  change (u "```") with (96 :: u "``") at 1.
  rewrite fenced_text_nth by apply contains_after. do 2 f_equal.
  change (u "```") with (96 :: u "``").
  unfold split at 2. rewrite split_go_no_tick by exact Hpre.
  rewrite split_go_at_sep. cbn [nth].
  rewrite split_go_no_tick by exact Hbody. rewrite split_go_at_sep. cbn [app nth].
  rewrite split_no_tick by exact Hbody. reflexivity.
Qed.

Lemma json_text_plain_fence_witness :
  json_text (u "Sure: ``` {} ``` done") = Some (u "{}").
Proof.
  apply (json_text_plain_fence (u "Sure: ") (u " {} ") (u " done")).
  - apply Forall_ne_of_bool. vm_compute. reflexivity.
  - apply Forall_ne_of_bool. vm_compute. reflexivity.
  - vm_compute. reflexivity.
Defined.

Lemma json_text_fenced_witness :
  json_text (u "Sure: ") = Some (u "Sure:")
  /\ json_text (u "Sure: ```json {} ``` done") = Some (u "{}")
  /\ json_text (u "Sure: ```json {} ") = Some (u "{}").
Proof.
  exact (json_text_fenced (u "Sure: ") (u " {} ") (u " done")
           (Forall_ne_of_bool 96 (u "Sure: ") eq_refl)
           (Forall_ne_of_bool 96 (u " {} ") eq_refl)
           (Forall_ne_of_bool 96 (u " done") eq_refl)).
Defined.
